(** * notes-kv: a shallow embedding of [src/index.ts]

    The action parses key/value metadata (either inline [key=value] lines or
    a JSON file), merges it with the JSON note already attached to the
    current commit and writes the result back with [git notes].

    Modelling choices.
    - A JavaScript string is the list of its UTF-16 code units ([list N]).
    - A plain JavaScript object is a finite map from property names to
      values ([gmap]); the enumeration order of properties is not modelled.
    - A thrown [Error] is its message; a computation that may throw and that
      logs or runs git is a function from the world to a result and a world.
    - The built-ins and the platform ([JSON.parse], [JSON.stringify],
      [readFile], [getInput], the process runner) are fields of an
      environment record. *)

From Stdlib Require Import Floats.SpecFloat.
From stdpp Require Import gmap strings list fin_maps.

Set Warnings "-register-all".

(** ** Strings *)

Abbreviation str := (list N).

(** A string literal, as code units. *)
Definition js (s : string) : str :=
  Ascii.N_of_ascii <$> String.list_ascii_of_string s.

Definition LF : N := 10.
Definition EQUALS : N := 61.

(** ECMAScript [WhiteSpace] and [LineTerminator] code units, the ones
    [String.prototype.trim] strips. *)
Definition is_ws (c : N) : bool :=
  ((9 <=? c) && (c <=? 13) || (c =? 32) || (c =? 160) || (c =? 5760)
   || (8192 <=? c) && (c <=? 8202) || (c =? 8232) || (c =? 8233)
   || (c =? 8239) || (c =? 8287) || (c =? 12288) || (c =? 65279))%N.

Fixpoint trimStart (s : str) : str :=
  match s with
  | [] => []
  | c :: s' => if is_ws c then trimStart s' else s
  end.

Fixpoint trimEnd (s : str) : str :=
  match s with
  | [] => []
  | c :: s' =>
      match trimEnd s' with
      | [] => if is_ws c then [] else [c]
      | t => c :: t
      end
  end.

(** [s.trim()] *)
Definition trim (s : str) : str := trimEnd (trimStart s).

(** [s.split(sep)] for a one-unit separator: never the empty list. *)
Fixpoint split (sep : N) (s : str) : list str :=
  match s with
  | [] => [[]]
  | c :: s' =>
      if (c =? sep)%N then [] :: split sep s'
      else match split sep s' with
           | [] => [[c]]
           | w :: ws => (c :: w) :: ws
           end
  end.

(** [parts.join(sep)] *)
Fixpoint join (sep : str) (parts : list str) : str :=
  match parts with
  | [] => []
  | [p] => p
  | p :: ps => p ++ sep ++ join sep ps
  end.

(** A string is falsy exactly when it is empty. *)
Definition truthy (s : str) : bool :=
  match s with [] => false | _ => true end.

(** [s] is not the empty string. *)
Definition nonempty (s : str) : bool := truthy s.

Definition blank (s : str) : bool := forallb is_ws s.

(** Decimal digits of a natural number, as [String(n)] prints an index. *)
Fixpoint uint_digits (u : Decimal.uint) : str :=
  match u with
  | Decimal.Nil => []
  | Decimal.D0 u => 48%N :: uint_digits u
  | Decimal.D1 u => 49%N :: uint_digits u
  | Decimal.D2 u => 50%N :: uint_digits u
  | Decimal.D3 u => 51%N :: uint_digits u
  | Decimal.D4 u => 52%N :: uint_digits u
  | Decimal.D5 u => 53%N :: uint_digits u
  | Decimal.D6 u => 54%N :: uint_digits u
  | Decimal.D7 u => 55%N :: uint_digits u
  | Decimal.D8 u => 56%N :: uint_digits u
  | Decimal.D9 u => 57%N :: uint_digits u
  end.

Definition decimal (n : nat) : str := uint_digits (Nat.to_uint n).

(** ** JSON values *)

Inductive json :=
  | JNull
  | JBool (b : bool)
  | JNumber (x : spec_float)
  | JString (s : str)
  | JArray (l : list json)
  | JObject (m : gmap str json).

(** [typeof v]: arrays and [null] are ["object"] too. *)
Definition typeof (v : json) : str :=
  match v with
  | JNull => js "object"
  | JBool _ => js "boolean"
  | JNumber _ => js "number"
  | JString _ => js "string"
  | JArray _ => js "object"
  | JObject _ => js "object"
  end.

(** The own enumerable properties of a value, as object spread and
    [Object.keys] see them: an array and a string have one per index. *)
Definition ownProps (v : json) : gmap str json :=
  match v with
  | JObject m => m
  | JArray l => list_to_map (imap (λ i x, (decimal i, x)) l)
  | JString s => list_to_map (imap (λ i c, (decimal i, JString [c])) s)
  | _ => ∅
  end.

(** [{ ...target, ...source }] once [target] is already copied: every own
    property of [source] is defined on the target, replacing what is there. *)
Definition copyDataProperties (target : gmap str json) (source : json)
  : gmap str json :=
  map_fold (λ k v acc, <[k:=v]> acc) target (ownProps source).

(** [{ ...a, ...b }] *)
Definition spread2 (a b : json) : json :=
  JObject (copyDataProperties (copyDataProperties ∅ a) b).

(** [Object.fromEntries(pairs)] on pairs of strings: later entries replace
    earlier ones. Only two-element entries reach the call in [parseInput]. *)
Definition defineEntry (m : gmap str json) (entry : list str)
  : gmap str json :=
  match entry with
  | [k; v] => <[k:=JString v]> m
  | _ => m
  end.

Definition fromEntries (pairs : list (list str)) : gmap str json :=
  foldl defineEntry ∅ pairs.

(** ** Inline input *)

(** [line.trim().split("=").map(part => part.trim())] *)
Definition parseLine (line : str) : list str :=
  trim <$> split EQUALS (trim line).

(** [input.trim().split("\n").map(...)] *)
Definition parsePairs (input : str) : list (list str) :=
  parseLine <$> split LF (trim input).

(** [pair.length !== 2 || !pair[0] || !pair[1]] *)
Definition invalidPair (pair : list str) : bool :=
  negb (length pair =? 2)
  || negb (truthy (default [] (pair !! 0)))
  || negb (truthy (default [] (pair !! 1))).

Definition invalidLines (input : str) : list (list str) :=
  filter (λ p, invalidPair p = true) (parsePairs input).

(** The message of the error [parseInput] throws. *)
Definition invalidMessage (invalid : list (list str)) : str :=
  js "Invalid input format on lines: "
  ++ join (js ", ") (imap (λ i _, decimal (i + 1)) invalid).

(** ** The world: git invocations and log output *)

Inductive event :=
  | Info (message : str)
  | Warning (message : str)
  | Debug (message : str)
  | SetFailed (message : str).

(** [git_calls] lists the argument vectors handed to [exec("git", ...)],
    oldest first; [log] the calls into the logging functions of the
    platform, oldest first. *)
Record world := World {
  git_calls : list (list str);
  log : list event;
}.

(** What [exec] does with a command: the promise is rejected, or the
    process exits with a code after writing to standard output. *)
Inductive exec_outcome :=
  | ExecRejects (message : str)
  | ExecExits (code : Z) (stdout : str).

(** What a call evaluates to: a value, or a thrown [Error] (its message). *)
Inductive completion (A : Type) :=
  | Normal (a : A)
  | Throw (message : str).
Arguments Normal {A} a.
Arguments Throw {A} message.

(** The built-ins and the platform the action runs on. [exec_git] gets the
    invocations made so far, so that git may answer according to them. *)
Record Env := {
  getInput : str → str;
  readFile : str → completion str;
  JSON_parse : str → completion json;
  JSON_stringify : json → str;
  exec_git : list (list str) → list str → exec_outcome;
}.

Definition action (A : Type) : Type := world → completion A * world.

Definition throw {A} (message : str) : action A := λ w, (Throw message, w).

#[global] Instance action_ret : MRet action := λ A a w, (Normal a, w).

#[global] Instance action_bind : MBind action := λ A B f m w,
  match m w with
  | (Normal a, w') => f a w'
  | (Throw e, w') => (Throw e, w')
  end.

(** [try { body } catch (error) { handler(error.message) }] *)
Definition try_catch {A} (body : action A) (handler : str → action A)
  : action A := λ w,
  match body w with
  | (Normal a, w') => (Normal a, w')
  | (Throw e, w') => handler e w'
  end.

Definition lift {A} (c : completion A) : action A := λ w, (c, w).

Definition emit (e : event) : action unit := λ w,
  (Normal (), World (git_calls w) (log w ++ [e])).

Definition info (message : str) : action unit := emit (Info message).
Definition warning (message : str) : action unit := emit (Warning message).
Definition debug (message : str) : action unit := emit (Debug message).
Definition setFailed (message : str) : action unit := emit (SetFailed message).

(** A warning was logged. *)
Definition warned (w : world) : bool :=
  existsb (λ e, match e with Warning _ => true | _ => false end) (log w).

(** The run is reported as failed exactly when [setFailed] was called. *)
Definition failed (w : world) : bool :=
  existsb (λ e, match e with SetFailed _ => true | _ => false end) (log w).

(** ** The action *)

Definition CUSTOM_NOTES_REF : str := js "notes-kv".

(** The message V8 gives the [TypeError] of [Object.keys(null)]. *)
Definition keys_of_null : str := js "Cannot convert undefined or null to object".

(** [Object.keys(v).length] *)
Definition objectKeysLength (v : json) : completion nat :=
  match v with
  | JNull => Throw keys_of_null
  | _ => Normal (size (ownProps v))
  end.

(** [s] is truthy and [s.trim()] is not the empty string. *)
Definition provided (s : str) : bool := truthy s && nonempty (trim s).

Definition parseInput (input : str) : action json :=
  let pairs := parsePairs input in
  let invalid := filter (λ p, invalidPair p = true) pairs in
  if 0 <? length invalid then
    debug (js "Input: " ++ input);;
    throw (invalidMessage invalid)
  else mret (JObject (fromEntries pairs)).

Section Action.

Variable E : Env.

Definition readInput (valuesInput valuesFile : str) : action json :=
  if provided valuesInput && provided valuesFile then
    throw (js "Both values and values_file cannot be provided.")
  else if provided valuesInput then
    parseInput valuesInput
  else if provided valuesFile then
    content ← lift (readFile E valuesFile);
    json_object ← lift (JSON_parse E content);
    if bool_decide (typeof json_object ≠ js "object") then
      throw (js "Input must be a JSON object.")
    else mret json_object
  else throw (js "Either values or values_file must be provided.").

Definition execGit (args : list str) : action str := λ w,
  let w' := World (git_calls w ++ [args]) (log w) in
  match exec_git E (git_calls w) args with
  | ExecRejects message => (Throw message, w')
  | ExecExits code output =>
      if bool_decide (code ≠ 0%Z) then
        (Throw (js "Failed to run git " ++ join (js " ") args), w')
      else (Normal (trim output), w')
  end.

Definition getCurrentCommit : action str :=
  execGit [js "rev-parse"; js "HEAD"].

Definition fetchNotesRef (notesRef : str) : action unit :=
  try_catch
    (execGit [js "fetch"; js "origin";
              js "refs/notes/" ++ notesRef ++ js ":refs/notes/" ++ notesRef];;
     mret ())
    (λ message,
      info (js "Note: " ++ message
            ++ js ". This may be normal when adding notes for the first time.")).

Definition showArgs (notesRef : str) : list str :=
  [js "notes"; js "--ref"; notesRef; js "show"].

Definition addArgs (notesRef body commitSha : str) : list str :=
  [js "notes"; js "--ref"; notesRef; js "add"; js "-f"; js "-m"; body;
   commitSha].

Definition addOrUpdateNotes (notes : json) (commitSha notesRef : str)
  : action unit :=
  existingNote ←
    try_catch
      (out ← execGit (showArgs notesRef);
       info (js "Existing note found. Preparing to update.");;
       mret out)
      (λ _, info (js "No existing note found. A new note will be created.");;
            mret []);
  notes ←
    (if truthy existingNote then
       try_catch
         (existingNotes ← lift (JSON_parse E existingNote);
          let notes := spread2 existingNotes notes in
          info (js "Merged notes: " ++ JSON_stringify E notes);;
          mret notes)
         (λ _, warning (js "Failed to parse existing note as JSON. Overwriting with new note.");;
               mret notes)
     else mret notes);
  execGit (addArgs notesRef (JSON_stringify E notes) commitSha);;
  info (js "Note added or updated successfully.").

Definition pushNotes : action unit :=
  execGit [js "push"; js "origin"; js "refs/notes/*"; js "-f"];; mret ().

Definition run : action unit :=
  try_catch
    (let values := getInput E (js "values") in
     let valuesFile := getInput E (js "values_file") in
     let notesRefInput := getInput E (js "custom_ref") in
     notes ← readInput values valuesFile;
     info (js "Notes to store: " ++ JSON_stringify E notes);;
     n ← lift (objectKeysLength notes);
     if n =? 0 then
       info (js "No values provided. Skipping note storage.")
     else
       let notesRef :=
         if provided notesRefInput then notesRefInput else CUSTOM_NOTES_REF in
       commitSha ← getCurrentCommit;
       fetchNotesRef notesRef;;
       addOrUpdateNotes notes commitSha notesRef;;
       pushNotes;;
       info (js "Notes stored successfully."))
    setFailed.
End Action.

(** ** Sample environments

    Small concrete platforms on which the action can be evaluated: inputs,
    files, the answers of git and the JSON texts that occur are given by
    tables. *)

Fixpoint assoc {A} (table : list (str * A)) (key : str) : option A :=
  match table with
  | [] => None
  | (k, a) :: rest => if bool_decide (k = key) then Some a else assoc rest key
  end.

Definition DQUOTE : N := 34.

Definition quoted (s : str) : str := DQUOTE :: s ++ [DQUOTE].

(** A serializer for the values of the samples: exact on [null], booleans,
    strings that need no escape, and arrays and objects of these; it lists
    the properties of an object in the order of the map. No sample
    serializes a number. *)
Fixpoint sampleStringify (v : json) : str :=
  match v with
  | JNull => js "null"
  | JBool true => js "true"
  | JBool false => js "false"
  | JNumber _ => js "null"
  | JString s => quoted s
  | JArray l => js "[" ++ join (js ",") (map sampleStringify l) ++ js "]"
  | JObject m =>
      js "{"
      ++ join (js ",")
           (map_fold (λ k x acc, (quoted k ++ js ":" ++ sampleStringify x) :: acc)
              [] m)
      ++ js "}"
  end.

(** [inputs]: the action's inputs; [files]: path and content; [texts]: the
    JSON texts that parse, with their values (any other text is a syntax
    error); [git]: the answers of git. *)
Definition sampleEnv (inputs files : list (str * str))
    (texts : list (str * json))
    (git : list (list str) → list str → exec_outcome) : Env :=
  {| getInput name := default [] (assoc inputs name);
     readFile path :=
       match assoc files path with
       | Some content => Normal content
       | None => Throw (js "ENOENT: no such file or directory, open '" ++ path ++ js "'")
       end;
     JSON_parse text :=
       match assoc texts text with
       | Some v => Normal v
       | None =>
           Throw (if truthy text then js "Unexpected token in JSON"
                  else js "Unexpected end of JSON input")
       end;
     JSON_stringify := sampleStringify;
     exec_git := git |}.

(** How [exec] rejects when git exits with [code] (a decimal numeral). *)
Definition gitFailure (code : str) : exec_outcome :=
  ExecRejects (js "The process '/usr/bin/git' failed with exit code " ++ code).

(** A git that has no note yet: [fetch] and [notes show] fail, the rest
    succeeds and [rev-parse] prints a commit id. *)
Definition gitFirstWrite (_ : list (list str)) (args : list str) : exec_outcome :=
  match args with
  | sub :: rest =>
      if bool_decide (sub = js "rev-parse") then ExecExits 0 (js "c0ffee" ++ [LF])
      else if bool_decide (sub = js "fetch") then gitFailure (js "128")
      else if bool_decide (sub = js "notes") then
        if bool_decide (last rest = Some (js "show")) then gitFailure (js "1")
        else ExecExits 0 []
      else ExecExits 0 []
  | [] => gitFailure (js "1")
  end.

(** A git whose [notes show] succeeds and prints [body]. *)
Definition gitWithNote (body : str) (_ : list (list str)) (args : list str)
  : exec_outcome :=
  match args with
  | sub :: rest =>
      if bool_decide (sub = js "rev-parse") then ExecExits 0 (js "c0ffee" ++ [LF])
      else if bool_decide (sub = js "notes") then
        if bool_decide (last rest = Some (js "show")) then ExecExits 0 body
        else ExecExits 0 []
      else ExecExits 0 []
  | [] => gitFailure (js "1")
  end.

Definition world0 : world := World [] [].

(** A values file holding an array, and one holding [null]. *)
Definition arrayText : str := js "[" ++ quoted (js "a") ++ js "]".

Definition arrayFileEnv : Env :=
  sampleEnv [(js "values_file", js "values.json")]
    [(js "values.json", arrayText)]
    [(arrayText, JArray [JString (js "a")])]
    gitFirstWrite.

Definition nullFileEnv : Env :=
  sampleEnv [(js "values_file", js "values.json")]
    [(js "values.json", js "null")]
    [(js "null", JNull)]
    gitFirstWrite.

(** A values file holding the empty object. *)
Definition emptyObjectEnv : Env :=
  sampleEnv [(js "values_file", js "values.json")]
    [(js "values.json", js "{}")]
    [(js "{}", JObject ∅)]
    gitFirstWrite.

Definition aliceText : str :=
  js "{" ++ quoted (js "author") ++ js ":" ++ quoted (js "alice") ++ js "}".

(** The commit has the note [{"author":"alice"}]. *)
Definition aliceNoteEnv : Env :=
  sampleEnv [(js "values", js "author=bob" ++ LF :: js "stage=deploy")] []
    [(aliceText, JObject {[ js "author" := JString (js "alice") ]})]
    (gitWithNote (aliceText ++ [LF])).

Definition bobDeploy : gmap str json :=
  <[js "stage" := JString (js "deploy")]> {[ js "author" := JString (js "bob") ]}.

(** The commit has a note of garbage. *)
Definition garbageNoteEnv : Env :=
  sampleEnv [(js "values", js "a=1")] [] [] (gitWithNote (js "not json" ++ [LF])).

(** The commit has a note with an empty body. *)
Definition emptyNoteEnv : Env :=
  sampleEnv [(js "values", js "a=1")] [] [] (gitWithNote []).

Definition aliceBuildText : str :=
  js "{" ++ quoted (js "author") ++ js ":" ++ quoted (js "alice") ++ js ","
  ++ quoted (js "build") ++ js ":" ++ quoted (js "7") ++ js "}".

Definition aliceBuild : gmap str json :=
  <[js "build" := JString (js "7")]> {[ js "author" := JString (js "alice") ]}.

(** The commit has the note [{"author":"alice","build":"7"}]. *)
Definition aliceBuildEnv : Env :=
  sampleEnv [(js "values", js "author=bob" ++ LF :: js "stage=deploy")] []
    [(aliceBuildText, JObject aliceBuild)]
    (gitWithNote (aliceBuildText ++ [LF])).

(** ** Well-formed inline inputs *)

(** The text of a key or of a value as it stands in a line: no [=], no line
    feed, and something other than whitespace. *)
Definition plainText (s : str) : Prop :=
  (EQUALS ∉ s) ∧ (LF ∉ s) ∧ blank s = false.

(** A line of the input: no line feed, not blank. *)
Definition plainLine (s : str) : Prop := (LF ∉ s) ∧ blank s = false.

Definition lineOf (kv : str * str) : str := kv.1 ++ EQUALS :: kv.2.

Definition pairOf (kv : str * str) : list str := [trim kv.1; trim kv.2].

(** ** The git commands of a run *)

Definition revParseArgs : list str := [js "rev-parse"; js "HEAD"].

Definition fetchArgs (notesRef : str) : list str :=
  [js "fetch"; js "origin";
   js "refs/notes/" ++ notesRef ++ js ":refs/notes/" ++ notesRef].

Definition pushArgs : list str :=
  [js "push"; js "origin"; js "refs/notes/*"; js "-f"].

(** The reference [run] stores the notes under. *)
Definition notesRefOf (E : Env) : str :=
  if provided (getInput E (js "custom_ref"))
  then getInput E (js "custom_ref") else CUSTOM_NOTES_REF.

(** The message of the error [execGit] throws on an outcome of the process,
    if it throws on it. *)
Definition failureMessage (args : list str) (outcome : exec_outcome)
  : option str :=
  match outcome with
  | ExecRejects message => Some message
  | ExecExits code _ =>
      if bool_decide (code ≠ 0%Z)
      then Some (js "Failed to run git " ++ join (js " ") args)
      else None
  end.

(** What [fetchNotesRef] logs on an outcome of the fetch. *)
Definition fetchLog (notesRef : str) (outcome : exec_outcome) : list event :=
  match failureMessage (fetchArgs notesRef) outcome with
  | Some message =>
      [Info (js "Note: " ++ message
             ++ js ". This may be normal when adding notes for the first time.")]
  | None => []
  end.

(** More sample answers of git. *)

(** Every command fails, as outside of a work tree. *)
Definition gitDown (_ : list (list str)) (_ : list str) : exec_outcome :=
  gitFailure (js "128").

(** No note yet, and [notes add] exits with 1. *)
Definition gitAddFails (calls : list (list str)) (args : list str)
  : exec_outcome :=
  if bool_decide (args !! 3 = Some (js "add")) then ExecExits 1 []
  else gitFirstWrite calls args.

(** No note yet, and the push is refused. *)
Definition gitPushFails (calls : list (list str)) (args : list str)
  : exec_outcome :=
  if bool_decide (head args = Some (js "push")) then gitFailure (js "1")
  else gitFirstWrite calls args.

Definition inlineEnv (git : list (list str) → list str → exec_outcome) : Env :=
  sampleEnv [(js "values", js "a=1")] [] [] git.

Definition a1 : json := JObject {[ js "a" := JString (js "1") ]}.

(** Closes a decidable goal by evaluation. *)
Ltac by_decide :=
  match goal with
  | |- ?P => apply (bool_decide_unpack P); vm_compute; exact I
  end.

(** * Properties *)

(** ** Trimming *)

Lemma is_ws_LF : is_ws LF = true.
Proof. reflexivity. Qed.

Lemma is_ws_EQUALS : is_ws EQUALS = false.
Proof. reflexivity. Qed.

Lemma trimStart_blank s : blank s = true → trimStart s = [].
Proof.
  induction s as [|c s IH]; simpl; [done|].
  intros [Hc Hs]%andb_prop. rewrite Hc. auto.
Qed.

Lemma trimEnd_nil s : trimEnd s = [] ↔ blank s = true.
Proof.
  induction s as [|c s IH]; simpl; [done|].
  destruct (trimEnd s) as [|d t] eqn:Ht.
  - destruct (is_ws c); simpl; [|done].
    split; [intros _; by apply IH|done].
  - split; [done|]. intros [_ Hs]%andb_prop. by apply IH in Hs.
Qed.

Lemma trimEnd_blank s : blank s = true → trimEnd s = [].
Proof. apply trimEnd_nil. Qed.

Lemma trimEnd_cons_keep c s :
  is_ws c = false → trimEnd (c :: s) = c :: trimEnd s.
Proof. intros Hc. simpl. rewrite Hc. by destruct (trimEnd s). Qed.

Lemma trimEnd_cons_nonblank c s :
  blank s = false → trimEnd (c :: s) = c :: trimEnd s.
Proof.
  intros Hs. simpl. destruct (trimEnd s) eqn:Ht; [|done].
  apply trimEnd_nil in Ht. congruence.
Qed.

Lemma blank_app a b : blank (a ++ b) = blank a && blank b.
Proof. apply forallb_app. Qed.

Lemma trimStart_app_nonblank a b :
  blank a = false → trimStart (a ++ b) = trimStart a ++ b.
Proof.
  induction a as [|c a IH]; simpl; [done|].
  destruct (is_ws c); simpl; auto.
Qed.

Lemma trimStart_app_blank a b :
  blank a = true → trimStart (a ++ b) = trimStart b.
Proof.
  induction a as [|c a IH]; simpl; [done|].
  intros [Hc Ha]%andb_prop. rewrite Hc. auto.
Qed.

Lemma trimEnd_app_nonblank a b :
  blank b = false → trimEnd (a ++ b) = a ++ trimEnd b.
Proof.
  intros Hb. induction a as [|c a IH]; [done|].
  rewrite <- app_comm_cons, trimEnd_cons_nonblank, IH; [done|].
  rewrite blank_app, Hb. apply andb_false_r.
Qed.

Lemma trimEnd_app_blank a b :
  blank b = true → trimEnd (a ++ b) = trimEnd a.
Proof.
  intros Hb. induction a as [|c a IH]; simpl.
  - by apply trimEnd_blank.
  - by rewrite IH.
Qed.

Lemma blank_trimStart s : blank (trimStart s) = blank s.
Proof.
  induction s as [|c s IH]; simpl; [done|].
  destruct (is_ws c) eqn:Hc; simpl; [done|]. by rewrite Hc.
Qed.

Lemma blank_trimEnd s : blank (trimEnd s) = blank s.
Proof.
  induction s as [|c s IH]; [done|].
  destruct (blank s) eqn:Hs.
  - simpl. rewrite (trimEnd_blank s Hs), Hs.
    destruct (is_ws c) eqn:Hc; simpl; by rewrite ?Hc.
  - rewrite trimEnd_cons_nonblank by done. simpl. by rewrite IH, Hs.
Qed.

Lemma trimStart_idemp s : trimStart (trimStart s) = trimStart s.
Proof.
  induction s as [|c s IH]; simpl; [done|].
  destruct (is_ws c) eqn:Hc; simpl; [done|]. by rewrite Hc.
Qed.

Lemma trimEnd_idemp s : trimEnd (trimEnd s) = trimEnd s.
Proof.
  induction s as [|c s IH]; [done|].
  destruct (blank s) eqn:Hs.
  - simpl. rewrite (trimEnd_blank s Hs).
    destruct (is_ws c) eqn:Hc; simpl; by rewrite ?Hc.
  - rewrite trimEnd_cons_nonblank by done.
    rewrite trimEnd_cons_nonblank by (by rewrite blank_trimEnd).
    by rewrite IH.
Qed.

Lemma trimStart_trimEnd s : trimStart (trimEnd s) = trimEnd (trimStart s).
Proof.
  induction s as [|c s IH]; [done|].
  destruct (is_ws c) eqn:Hc.
  - simpl. rewrite Hc. destruct (trimEnd s) as [|d t] eqn:Ht.
    + simpl. by rewrite <- IH.
    + rewrite <- IH. simpl. by rewrite Hc.
  - rewrite trimEnd_cons_keep by done. simpl. rewrite Hc.
    by rewrite trimEnd_cons_keep.
Qed.

Lemma trim_trimStart s : trim (trimStart s) = trim s.
Proof. unfold trim. by rewrite trimStart_idemp. Qed.

Lemma trim_trimEnd s : trim (trimEnd s) = trim s.
Proof. unfold trim. by rewrite trimStart_trimEnd, trimEnd_idemp. Qed.

Lemma trim_idemp s : trim (trim s) = trim s.
Proof. unfold trim at 2. by rewrite trim_trimEnd, trim_trimStart. Qed.

Lemma blank_trim s : blank (trim s) = blank s.
Proof. unfold trim. by rewrite blank_trimEnd, blank_trimStart. Qed.

Lemma trim_blank s : blank s = true → trim s = [].
Proof. intros Hs. unfold trim. by rewrite trimStart_blank. Qed.

Lemma truthy_trim s : truthy (trim s) = negb (blank s).
Proof.
  destruct (blank s) eqn:Hs.
  - by rewrite trim_blank.
  - destruct (trim s) eqn:Ht; [|done].
    rewrite <- blank_trim, Ht in Hs. done.
Qed.

Lemma trim_surrounded pre s post :
  blank pre = true → blank post = true → trim (pre ++ s ++ post) = trim s.
Proof.
  intros Hpre Hpost. unfold trim. rewrite trimStart_app_blank by done.
  rewrite <- !trimStart_trimEnd. by rewrite trimEnd_app_blank.
Qed.

Lemma trimStart_notin c s : c ∉ s → c ∉ trimStart s.
Proof.
  induction s as [|d s IH]; simpl; [done|].
  intros Hn. destruct (is_ws d); [|done].
  apply IH. intros ?. apply Hn. by right.
Qed.

Lemma trimEnd_notin c s : c ∉ s → c ∉ trimEnd s.
Proof.
  induction s as [|d s IH]; simpl; [done|].
  intros Hn. apply not_elem_of_cons in Hn as [Hd Hs].
  specialize (IH Hs).
  destruct (trimEnd s) as [|e t]; [destruct (is_ws d)|];
    rewrite ?not_elem_of_cons; repeat split; auto using not_elem_of_nil;
    by apply not_elem_of_cons in IH as [? ?].
Qed.

Lemma trim_notin c s : c ∉ s → c ∉ trim s.
Proof. intros. by apply trimEnd_notin, trimStart_notin. Qed.

(** ** Splitting and joining *)

Lemma split_nonnil sep s : split sep s ≠ [].
Proof.
  destruct s as [|c s]; simpl; [done|].
  destruct (c =? sep)%N; [done|]. by destruct (split sep s).
Qed.

Lemma split_notin sep s : sep ∉ s → split sep s = [s].
Proof.
  induction s as [|c s IH]; simpl; [done|].
  intros [Hc Hs]%not_elem_of_cons.
  destruct (N.eqb_spec c sep) as [->|_]; [done|]. by rewrite IH.
Qed.

Lemma split_app_sep sep a b :
  sep ∉ a → split sep (a ++ sep :: b) = a :: split sep b.
Proof.
  induction a as [|c a IH]; simpl.
  - intros _. by rewrite N.eqb_refl.
  - intros [Hc Ha]%not_elem_of_cons.
    destruct (N.eqb_spec c sep) as [->|_]; [done|]. by rewrite IH.
Qed.

Lemma split_join sep parts :
  parts ≠ [] → Forall (λ p, sep ∉ p) parts →
  split sep (join [sep] parts) = parts.
Proof.
  induction parts as [|p ps IH]; [done|].
  intros _ Hall. apply Forall_cons in Hall as [Hp Hps].
  destruct ps as [|q ps].
  - simpl. by apply split_notin.
  - change (join [sep] (p :: q :: ps)) with (p ++ sep :: join [sep] (q :: ps)).
    rewrite split_app_sep by done. by rewrite IH.
Qed.

Lemma join_split sep s : join [sep] (split sep s) = s.
Proof.
  induction s as [|c s IH]; simpl; [done|].
  destruct (N.eqb_spec c sep) as [->|_].
  - pose proof (split_nonnil sep s).
    destruct (split sep s) as [|w ws] eqn:Hs; [done|].
    simpl in *. by rewrite IH.
  - destruct (split sep s) as [|w ws] eqn:Hs.
    + by destruct (split_nonnil sep s).
    + rewrite <- IH. by destruct ws.
Qed.

Lemma split_parts_notin sep s : Forall (λ p, sep ∉ p) (split sep s).
Proof.
  induction s as [|c s IH]; simpl.
  - repeat constructor. apply not_elem_of_nil.
  - destruct (N.eqb_spec c sep) as [->|Hne].
    + constructor; [apply not_elem_of_nil|done].
    + destruct (split sep s) as [|w ws].
      * repeat constructor. rewrite not_elem_of_cons.
        auto using not_elem_of_nil.
      * apply Forall_cons in IH as [Hw Hws].
        constructor; [by rewrite not_elem_of_cons|done].
Qed.

Lemma join_snoc sep parts p :
  parts ≠ [] → join sep (parts ++ [p]) = join sep parts ++ sep ++ p.
Proof.
  induction parts as [|q qs IH]; [done|]. intros _.
  destruct qs as [|r qs]; [done|].
  change (join sep ((q :: r :: qs) ++ [p]))
    with (q ++ sep ++ join sep ((r :: qs) ++ [p])).
  rewrite IH by done. simpl. by rewrite <- !app_assoc.
Qed.

(** ** Lines and pairs *)

Lemma parseLine_trimStart line : parseLine (trimStart line) = parseLine line.
Proof. unfold parseLine. by rewrite trim_trimStart. Qed.

Lemma parseLine_trimEnd line : parseLine (trimEnd line) = parseLine line.
Proof. unfold parseLine. by rewrite trim_trimEnd. Qed.

(** A line with one [=] between two texts that are not blank. *)
Lemma parseLine_key_value k v :
  EQUALS ∉ k → EQUALS ∉ v → blank k = false → blank v = false →
  parseLine (k ++ EQUALS :: v) = [trim k; trim v].
Proof.
  intros Hk Hv Bk Bv. unfold parseLine.
  assert (trim (k ++ EQUALS :: v) = trimStart k ++ EQUALS :: trimEnd v) as ->.
  { unfold trim. rewrite trimStart_app_nonblank by done.
    rewrite trimEnd_app_nonblank by done.
    by rewrite trimEnd_cons_keep. }
  rewrite split_app_sep by (by apply trimStart_notin).
  rewrite split_notin by (by apply trimEnd_notin).
  simpl. by rewrite trim_trimStart, trim_trimEnd.
Qed.

Lemma invalidPair_false pair :
  invalidPair pair = false ↔
  ∃ k v, pair = [k; v] ∧ k ≠ [] ∧ v ≠ [].
Proof.
  unfold invalidPair. split.
  - destruct pair as [|k [|v [|x rest]]]; simpl; try done.
    destruct k, v; simpl; try done. intros _. eauto 10.
  - intros (k & v & -> & Hk & Hv). by destruct k, v.
Qed.

Lemma split_two sep s a b :
  split sep s = [a; b] → s = a ++ sep :: b ∧ (sep ∉ a) ∧ (sep ∉ b).
Proof.
  intros Hs. pose proof (join_split sep s) as Hj.
  pose proof (split_parts_notin sep s) as Hall.
  rewrite Hs in Hj, Hall. simpl in Hj.
  apply Forall_cons in Hall as [Ha Hall]. apply Forall_cons in Hall as [Hb _].
  done.
Qed.

Lemma parseLine_valid line :
  invalidPair (parseLine line) = false ↔
  ∃ k v, trim line = k ++ EQUALS :: v ∧ (EQUALS ∉ k) ∧ (EQUALS ∉ v)
         ∧ blank k = false ∧ blank v = false.
Proof.
  rewrite invalidPair_false. split.
  - intros (k & v & Hp & Hk & Hv). unfold parseLine in Hp.
    destruct (split EQUALS (trim line)) as [|a [|b [|c rest]]] eqn:Hs;
      simplify_eq/=.
    apply split_two in Hs as (-> & Ha & Hb).
    exists a, b. repeat split; try done.
    + destruct (blank a) eqn:Ba; [|done]. by rewrite trim_blank in Hk.
    + destruct (blank b) eqn:Bb; [|done]. by rewrite trim_blank in Hv.
  - intros (k & v & Ht & Hk & Hv & Bk & Bv).
    exists (trim k), (trim v). split.
    + rewrite <- (parseLine_key_value k v) by done.
      unfold parseLine. by rewrite <- Ht, trim_idemp.
    + split; intros Hnil.
      * pose proof (truthy_trim k) as H. by rewrite Hnil, Bk in H.
      * pose proof (truthy_trim v) as H. by rewrite Hnil, Bv in H.
Qed.

(** ** Objects *)

Lemma fromEntries_snoc pairs p :
  fromEntries (pairs ++ [p]) = defineEntry (fromEntries pairs) p.
Proof. apply foldl_snoc. Qed.

Lemma defineEntry_lookup_other m p k :
  (∀ v, p ≠ [k; v]) → defineEntry m p !! k = m !! k.
Proof.
  intros Hp. destruct p as [|k' [|v' [|x rest]]]; simpl; try done.
  apply lookup_insert_ne. intros ->. by apply (Hp v').
Qed.

(** The value bound to a key is the one of the last entry that has it. *)
Lemma fromEntries_lookup_last (pairs : list (list str)) i k v :
  pairs !! i = Some [k; v] →
  (∀ j v', i < j → pairs !! j ≠ Some [k; v']) →
  fromEntries pairs !! k = Some (JString v).
Proof.
  revert i. induction pairs as [|p pairs IH] using rev_ind; [done|].
  intros i Hi Hlast. rewrite fromEntries_snoc.
  destruct (decide (i = length pairs)) as [->|Hne].
  - rewrite list_lookup_middle in Hi by done. simplify_eq/=.
    apply lookup_insert_eq.
  - assert (i < length pairs) as Hlt.
    { apply lookup_lt_Some in Hi. rewrite length_app in Hi. simpl in Hi. lia. }
    rewrite lookup_app_l in Hi by done.
    rewrite defineEntry_lookup_other.
    + apply (IH i); [done|]. intros j v' Hj Hp.
      apply (Hlast j v' Hj). rewrite lookup_app_l; [done|].
      by apply lookup_lt_Some in Hp.
    + intros v' ->. apply (Hlast (length pairs) v' Hlt).
      by apply list_lookup_middle.
Qed.

Lemma defineEntry_is_Some m p k :
  is_Some (defineEntry m p !! k) ↔ is_Some (m !! k) ∨ ∃ v, p = [k; v].
Proof.
  destruct p as [|k' [|v' [|x rest]]]; simpl;
    try (split; [by left|by intros [?|[? ?]]]).
  destruct (decide (k' = k)) as [->|Hne].
  - rewrite lookup_insert_eq. split; [|by eauto]. intros _. right. eauto.
  - rewrite lookup_insert_ne by done. split; [by left|].
    intros [?|[v ?]]; [done|]. congruence.
Qed.

(** The keys are those of the two-element entries. *)
Lemma fromEntries_is_Some (pairs : list (list str)) k :
  is_Some (fromEntries pairs !! k) ↔ ∃ v, [k; v] ∈ pairs.
Proof.
  induction pairs as [|p pairs IH] using rev_ind.
  - unfold fromEntries. simpl. rewrite lookup_empty. split.
    + by intros [? ?].
    + intros [v Hv]. by apply elem_of_nil in Hv.
  - rewrite fromEntries_snoc, defineEntry_is_Some, IH. split.
    + intros [[v Hv]|[v ->]]; exists v; apply elem_of_app.
      * by left.
      * right. by left.
    + intros [v [Hv|Hv]%elem_of_app]; [left; eauto|].
      apply list_elem_of_singleton in Hv. right. eauto.
Qed.

Lemma lookup_copyDataProperties target source k :
  copyDataProperties target source !! k =
  match ownProps source !! k with
  | Some v => Some v
  | None => target !! k
  end.
Proof.
  unfold copyDataProperties.
  apply (map_fold_weak_ind
           (λ r (m : gmap str json),
              r !! k = match m !! k with Some v => Some v | None => target !! k end)).
  - by rewrite lookup_empty.
  - intros i x m r Hi IH. destruct (decide (i = k)) as [->|Hne].
    + by rewrite !lookup_insert_eq.
    + by rewrite !lookup_insert_ne.
Qed.

(** The merge [{ ...existing, ...notes }] of two objects. *)
Lemma spread2_objects existing notes :
  ∃ result, spread2 (JObject existing) (JObject notes) = JObject result
    ∧ ∀ k, result !! k = match notes !! k with
                         | Some v => Some v
                         | None => existing !! k
                         end.
Proof.
  eexists. split; [done|]. intros k.
  rewrite !lookup_copyDataProperties. simpl.
  destruct (notes !! k); [done|]. destruct (existing !! k); [done|].
  apply lookup_empty.
Qed.

(** ** [parseInput] *)

Lemma parseInput_valid input w :
  invalidLines input = [] →
  parseInput input w = (Normal (JObject (fromEntries (parsePairs input))), w).
Proof.
  intros Hnone. unfold parseInput. fold (invalidLines input).
  by rewrite Hnone.
Qed.

Lemma parseInput_invalid input w :
  invalidLines input ≠ [] →
  parseInput input w =
    (Throw (invalidMessage (invalidLines input)),
     World (git_calls w) (log w ++ [Debug (js "Input: " ++ input)])).
Proof.
  intros Hsome. unfold parseInput. fold (invalidLines input).
  by destruct (invalidLines input).
Qed.

Lemma invalidLines_nil input :
  invalidLines input = [] ↔
  Forall (λ line, invalidPair (parseLine line) = false) (split LF (trim input)).
Proof.
  unfold invalidLines, parsePairs. rewrite Forall_forall. split.
  - intros Hnil line Hline.
    destruct (invalidPair (parseLine line)) eqn:Hinv; [|done].
    exfalso. eapply (filter_nil_not_elem_of _ _ (parseLine line)); [done|done|].
    by apply list_elem_of_fmap_2.
  - intros Hall. apply elem_of_nil_inv. intros p [Hp Hin]%list_elem_of_filter.
    apply list_elem_of_fmap in Hin as (line & -> & Hline).
    rewrite (Hall line Hline) in Hp. done.
Qed.

(** What [run] does once [parseInput] has rejected the inline input. *)
Lemma run_inline_invalid E w :
  provided (getInput E (js "values")) = true →
  provided (getInput E (js "values_file")) = false →
  invalidLines (getInput E (js "values")) ≠ [] →
  run E w =
    (Normal (),
     World (git_calls w)
       (log w ++ [Debug (js "Input: " ++ getInput E (js "values"));
                  SetFailed (invalidMessage (invalidLines (getInput E (js "values"))))])).
Proof.
  intros Hv Hf Hinv. unfold run, try_catch, readInput, mbind, action_bind.
  rewrite Hv, Hf. simpl. rewrite parseInput_invalid by done.
  unfold setFailed, emit. simpl. by rewrite <- app_assoc.
Qed.

(** C4, as the code has it: a line is split on every [=], so it is valid
    exactly when its trimmed text is [k=v] with no [=] inside [k] and [v] and
    neither of them blank; the pair is then the trimmed [k] and [v]. A line
    with a second [=] is invalid. *)
Theorem C4_line_valid_iff_single_equals line :
  invalidPair (parseLine line) = false ↔
  ∃ k v, trim line = k ++ EQUALS :: v ∧ (EQUALS ∉ k) ∧ (EQUALS ∉ v)
         ∧ blank k = false ∧ blank v = false
         ∧ parseLine line = [trim k; trim v].
Proof.
  rewrite parseLine_valid. split.
  - intros (k & v & Ht & Hk & Hv & Bk & Bv). exists k, v.
    repeat split; try done.
    rewrite <- (parseLine_key_value k v) by done.
    unfold parseLine. by rewrite <- Ht, trim_idemp.
  - intros (k & v & Ht & Hk & Hv & Bk & Bv & _). eauto 10.
Qed.

(** C4, refuted as stated: the line [k=a=b] does not parse to key [k] with
    value [a=b]; it splits into three parts and the input is rejected. *)
Lemma C4_second_equals_rejected :
  parseLine (js "k=a=b") = [js "k"; js "a"; js "b"]
  ∧ fst (parseInput (js "k=a=b") world0)
    = Throw (js "Invalid input format on lines: 1").
Proof. split; vm_compute; reflexivity. Qed.

(** C5: an inline input with a line that is not one non-empty key and one
    non-empty value is rejected as a whole: [parseInput] throws and returns no
    map, and the run fails without a single git command. *)
Theorem C5_invalid_line_rejects_input E w input :
  getInput E (js "values") = input →
  provided input = true →
  provided (getInput E (js "values_file")) = false →
  Exists (λ line, invalidPair (parseLine line) = true) (split LF (trim input)) →
  ∃ message,
    parseInput input w =
      (Throw message,
       World (git_calls w) (log w ++ [Debug (js "Input: " ++ input)]))
    ∧ run E w =
      (Normal (),
       World (git_calls w)
         (log w ++ [Debug (js "Input: " ++ input); SetFailed message])).
Proof.
  intros Hin Hv Hf Hex.
  assert (invalidLines input ≠ []) as Hinv.
  { intros Hnil. apply invalidLines_nil in Hnil.
    apply Exists_exists in Hex as (line & Hline & Hbad).
    rewrite Forall_forall in Hnil. rewrite (Hnil line Hline) in Hbad. done. }
  exists (invalidMessage (invalidLines input)). split.
  - by apply parseInput_invalid.
  - subst input. by apply run_inline_invalid.
Qed.

Lemma C5_invalid_line_rejects_input_witness :
  ∃ message,
    parseInput (js "a=1" ++ LF :: js "bad") world0 =
      (Throw message,
       World [] [Debug (js "Input: " ++ js "a=1" ++ LF :: js "bad")])
    ∧ run (sampleEnv [(js "values", js "a=1" ++ LF :: js "bad")] [] [] gitFirstWrite)
        world0 =
      (Normal (),
       World [] [Debug (js "Input: " ++ js "a=1" ++ LF :: js "bad");
                 SetFailed message]).
Proof.
  apply (C5_invalid_line_rejects_input
           (sampleEnv [(js "values", js "a=1" ++ LF :: js "bad")] [] [] gitFirstWrite)
           world0 (js "a=1" ++ LF :: js "bad")).
  - reflexivity.
  - reflexivity.
  - reflexivity.
  - vm_compute. apply Exists_cons_tl, Exists_cons_hd. reflexivity.
Defined.

(** C8: with [m > 0] invalid lines, the message lists [1, 2, ..., m], the
    positions within the invalid lines, whatever their positions in the
    input. *)
Theorem C8_invalid_indices_count_from_one input w m :
  length (invalidLines input) = m →
  0 < m →
  parseInput input w =
    (Throw (js "Invalid input format on lines: "
            ++ join (js ", ") (decimal <$> seq 1 m)),
     World (git_calls w) (log w ++ [Debug (js "Input: " ++ input)])).
Proof.
  intros Hlen Hm. rewrite parseInput_invalid.
  - unfold invalidMessage.
    rewrite (imap_seq_0 (invalidLines input) (λ i, decimal (i + 1))), Hlen.
    rewrite <- fmap_S_seq, <- list_fmap_compose.
    do 4 f_equal. apply list_fmap_ext. intros _ i _. simpl.
    by rewrite Nat.add_1_r.
  - intros Hnil. rewrite Hnil in Hlen. simpl in Hlen. lia.
Qed.

Lemma C8_invalid_indices_count_from_one_witness :
  parseInput (js "a=1" ++ LF :: js "bad" ++ LF :: js "c=3" ++ LF :: js "d=")
    world0 =
    (Throw (js "Invalid input format on lines: 1, 2"),
     World [] [Debug (js "Input: " ++ js "a=1" ++ LF :: js "bad" ++ LF :: js "c=3"
                        ++ LF :: js "d=")]).
Proof.
  apply (C8_invalid_indices_count_from_one
           (js "a=1" ++ LF :: js "bad" ++ LF :: js "c=3" ++ LF :: js "d=")
           world0 2).
  - reflexivity.
  - lia.
Defined.



(** ** Well-formed inline inputs *)

Lemma join_cons sep p ps :
  join sep (p :: ps) = p ++ match ps with [] => [] | _ => sep ++ join sep ps end.
Proof. destruct ps; simpl; by rewrite ?app_nil_r. Qed.

Lemma trimStart_join l rest :
  blank l = false →
  trimStart (join [LF] (l :: rest)) = join [LF] (trimStart l :: rest).
Proof.
  intros Hl. rewrite !join_cons. by apply trimStart_app_nonblank.
Qed.

Lemma trimEnd_join init l :
  blank l = false →
  trimEnd (join [LF] (init ++ [l])) = join [LF] (init ++ [trimEnd l]).
Proof.
  intros Hl. destruct init as [|p init]; [done|].
  rewrite !join_snoc by done.
  by rewrite !trimEnd_app_nonblank.
Qed.

Lemma plainLine_trimStart l : plainLine l → plainLine (trimStart l).
Proof.
  intros [Hn Hb]. split; [by apply trimStart_notin|by rewrite blank_trimStart].
Qed.

Lemma plainLine_trimEnd l : plainLine l → plainLine (trimEnd l).
Proof.
  intros [Hn Hb]. split; [by apply trimEnd_notin|by rewrite blank_trimEnd].
Qed.

(** Trimming the whole input only trims its first and its last line. *)
Lemma parsePairs_lines lines :
  lines ≠ [] → Forall plainLine lines →
  parseLine <$> split LF (trim (join [LF] lines)) = parseLine <$> lines.
Proof.
  destruct lines as [|l rest]; [done|]. intros _ Hall.
  apply Forall_cons in Hall as [Hl Hrest].
  unfold trim. rewrite trimStart_join by apply Hl.
  transitivity (parseLine <$> trimStart l :: rest);
    [|by rewrite !fmap_cons, parseLine_trimStart].
  assert (Forall plainLine (trimStart l :: rest)) as Hall
    by (constructor; [by apply plainLine_trimStart|done]).
  destruct (exists_last (l:=trimStart l :: rest)) as (init & z & Heq); [done|].
  rewrite Heq in *. apply Forall_app in Hall as [Hinit Hz].
  apply Forall_cons in Hz as [Hz _].
  rewrite trimEnd_join by apply Hz.
  rewrite split_join.
  - rewrite !fmap_app. simpl. by rewrite parseLine_trimEnd.
  - by destruct init.
  - apply Forall_app. split.
    + eapply Forall_impl; [exact Hinit|]. by intros ? [? _].
    + constructor; [|done]. by apply plainLine_trimEnd.
Qed.

Lemma plainText_line kv :
  plainText kv.1 → plainText kv.2 → plainLine (lineOf kv).
Proof.
  intros (_ & Hk & Bk) (_ & Hv & _). split.
  - unfold lineOf. rewrite not_elem_of_app, not_elem_of_cons. done.
  - unfold lineOf. rewrite blank_app, Bk. done.
Qed.

Lemma parsePairs_well_formed (kvs : list (str * str)) pre post :
  kvs ≠ [] →
  Forall (λ kv, plainText kv.1 ∧ plainText kv.2) kvs →
  blank pre = true → blank post = true →
  parsePairs (pre ++ join [LF] (lineOf <$> kvs) ++ post) = pairOf <$> kvs.
Proof.
  intros Hne Hall Hpre Hpost. unfold parsePairs.
  rewrite trim_surrounded by done.
  rewrite parsePairs_lines.
  - rewrite <- list_fmap_compose. apply Forall_fmap_ext.
    eapply Forall_impl; [exact Hall|].
    intros [k v] [(Hk & _ & Bk) (Hv & _ & Bv)]. simpl in *.
    by apply parseLine_key_value.
  - by destruct kvs.
  - apply Forall_fmap. eapply Forall_impl; [exact Hall|].
    intros kv [Hk Hv]. by apply plainText_line.
Qed.

Lemma invalidPair_pairOf kv :
  plainText kv.1 → plainText kv.2 → invalidPair (pairOf kv) = false.
Proof.
  intros (_ & _ & Bk) (_ & _ & Bv). unfold invalidPair, pairOf. simpl.
  by rewrite !truthy_trim, Bk, Bv.
Qed.

(** C6: a well-formed inline input, whatever whitespace surrounds it, its
    lines, its keys and its values, parses to the map of the trimmed keys to
    the trimmed values: the keys of the map are exactly the trimmed keys, and
    a key is bound to the trimmed value of the last line that has it. *)
Theorem C6_well_formed_input_parses (kvs : list (str * str)) pre post w :
  kvs ≠ [] →
  Forall (λ kv, plainText kv.1 ∧ plainText kv.2) kvs →
  blank pre = true → blank post = true →
  ∃ m,
    parseInput (pre ++ join [LF] (lineOf <$> kvs) ++ post) w
      = (Normal (JObject m), w)
    ∧ m = fromEntries (pairOf <$> kvs)
    ∧ (∀ key, is_Some (m !! key) ↔ ∃ kv, kv ∈ kvs ∧ key = trim kv.1)
    ∧ (∀ i kv, kvs !! i = Some kv →
         (∀ j kv', i < j → kvs !! j = Some kv' → trim kv'.1 ≠ trim kv.1) →
         m !! trim kv.1 = Some (JString (trim kv.2))).
Proof.
  intros Hne Hall Hpre Hpost.
  pose proof (parsePairs_well_formed kvs pre post Hne Hall Hpre Hpost) as Hpairs.
  exists (fromEntries (pairOf <$> kvs)). repeat split.
  - rewrite parseInput_valid; [by rewrite Hpairs|].
    unfold invalidLines. rewrite Hpairs. apply elem_of_nil_inv.
    intros p [Hp Hin]%list_elem_of_filter.
    apply list_elem_of_fmap in Hin as (kv & -> & Hkv).
    rewrite Forall_forall in Hall. destruct (Hall kv Hkv) as [Hk Hv].
    by rewrite invalidPair_pairOf in Hp.
  - intros [v' Hin]%fromEntries_is_Some.
    apply list_elem_of_fmap in Hin as (kv & Heq & Hkv).
    exists kv. split; [done|]. unfold pairOf in Heq. congruence.
  - intros (kv & Hkv & ->). apply fromEntries_is_Some.
    exists (trim kv.2). by apply (list_elem_of_fmap_2 pairOf).
  - intros i kv Hi Hlast. apply (fromEntries_lookup_last _ i).
    + by rewrite list_lookup_fmap, Hi.
    + intros j v' Hj Hp. rewrite list_lookup_fmap in Hp.
      destruct (kvs !! j) as [kv'|] eqn:Hkv'; [|done].
      simpl in Hp. unfold pairOf in Hp.
      apply (Hlast j kv' Hj Hkv'). congruence.
Qed.

Lemma C6_well_formed_input_parses_witness :
  ∃ m,
    parseInput
      (js " " ++ LF :: join [LF] (lineOf <$> [(js " a ", js " 1 "); (js "b", js "2")])
       ++ LF :: js "  ") world0
      = (Normal (JObject m), world0)
    ∧ m = fromEntries (pairOf <$> [(js " a ", js " 1 "); (js "b", js "2")])
    ∧ (∀ key, is_Some (m !! key) ↔
         ∃ kv, kv ∈ [(js " a ", js " 1 "); (js "b", js "2")] ∧ key = trim kv.1)
    ∧ (∀ i kv, [(js " a ", js " 1 "); (js "b", js "2")] !! i = Some kv →
         (∀ j kv', i < j →
            [(js " a ", js " 1 "); (js "b", js "2")] !! j = Some kv' →
            trim kv'.1 ≠ trim kv.1) →
         m !! trim kv.1 = Some (JString (trim kv.2))).
Proof.
  apply (C6_well_formed_input_parses
           [(js " a ", js " 1 "); (js "b", js "2")]
           (js " " ++ [LF]) (LF :: js "  ") world0).
  - discriminate.
  - unfold plainText. by_decide.
  - reflexivity.
  - reflexivity.
Defined.

(** ** Reading the input *)

Lemma readInput_neither E valuesInput valuesFile w :
  provided valuesInput = false → provided valuesFile = false →
  readInput E valuesInput valuesFile w =
    (Throw (js "Either values or values_file must be provided."), w).
Proof. intros Hv Hf. unfold readInput. by rewrite Hv, Hf. Qed.

Lemma readInput_file E valuesInput valuesFile content v w :
  provided valuesInput = false → provided valuesFile = true →
  readFile E valuesFile = Normal content →
  JSON_parse E content = Normal v →
  readInput E valuesInput valuesFile w =
    (if bool_decide (typeof v ≠ js "object")
     then Throw (js "Input must be a JSON object.")
     else Normal v, w).
Proof.
  intros Hv Hf Hread Hparse.
  unfold readInput, mbind, action_bind, lift. rewrite Hv, Hf, Hread, Hparse.
  simpl. by destruct (bool_decide (typeof v ≠ js "object")).
Qed.

(** A JSON file holding a string, a number or a boolean is rejected. *)
Lemma readInput_file_primitive E valuesInput valuesFile content v w :
  provided valuesInput = false → provided valuesFile = true →
  readFile E valuesFile = Normal content →
  JSON_parse E content = Normal v →
  (∃ s, v = JString s) ∨ (∃ x, v = JNumber x) ∨ (∃ b, v = JBool b) →
  readInput E valuesInput valuesFile w =
    (Throw (js "Input must be a JSON object."), w).
Proof.
  intros Hv Hf Hread Hparse Hprim.
  rewrite (readInput_file E _ _ content v) by done.
  by destruct Hprim as [[s ->]|[[x ->]|[b ->]]].
Qed.

(** A JSON file holding an object is returned as it is; so is one holding an
    array, and one holding [null]: [typeof] says ["object"] of all three. *)
Lemma readInput_file_typeof_object E valuesInput valuesFile content v w :
  provided valuesInput = false → provided valuesFile = true →
  readFile E valuesFile = Normal content →
  JSON_parse E content = Normal v →
  (∃ m, v = JObject m) ∨ (∃ l, v = JArray l) ∨ v = JNull →
  readInput E valuesInput valuesFile w = (Normal v, w).
Proof.
  intros Hv Hf Hread Hparse Hobj.
  rewrite (readInput_file E _ _ content v) by done.
  by destruct Hobj as [[m ->]|[[l ->]| ->]].
Qed.

(** When [readInput] returns, the world is as it was. *)
Lemma readInput_normal E valuesInput valuesFile w notes w1 :
  readInput E valuesInput valuesFile w = (Normal notes, w1) → w1 = w.
Proof.
  unfold readInput, parseInput, mbind, action_bind, lift, throw.
  repeat case_match; simplify_eq/=; try done.
  all: unfold mret, action_ret; by intros [= _ ->].
Qed.

(** C2, where the code departs from it: a values file whose JSON is an array
    is not rejected. [readInput] returns the array and the run stores it as
    the note. A file holding [null] is returned by [readInput] as well; the
    run then fails on [Object.keys(null)], not on the check of the input. *)
Theorem C2_array_and_null_pass_the_check :
  readInput arrayFileEnv [] (js "values.json") world0
    = (Normal (JArray [JString (js "a")]), world0)
  ∧ last (git_calls (run arrayFileEnv world0).2)
    = Some [js "push"; js "origin"; js "refs/notes/*"; js "-f"]
  ∧ addArgs (js "notes-kv") arrayText (js "c0ffee")
    ∈ git_calls (run arrayFileEnv world0).2
  ∧ failed (run arrayFileEnv world0).2 = false
  ∧ readInput nullFileEnv [] (js "values.json") world0 = (Normal JNull, world0)
  ∧ log (run nullFileEnv world0).2
    = [Info (js "Notes to store: null"); SetFailed keys_of_null].
Proof.
  repeat split; try (vm_compute; reflexivity).
  by_decide.
Qed.

(** ** The run *)

(** C3, as the code has it: with neither [values] nor [values_file] given,
    the run is reported as failed with the message of [readInput], and no
    git command is executed. *)
Theorem C3_neither_input_fails_without_git E w :
  provided (getInput E (js "values")) = false →
  provided (getInput E (js "values_file")) = false →
  run E w =
    (Normal (),
     World (git_calls w)
       (log w ++ [SetFailed (js "Either values or values_file must be provided.")])).
Proof.
  intros Hv Hf. unfold run, try_catch, mbind, action_bind.
  by rewrite readInput_neither.
Qed.

Lemma C3_neither_input_fails_without_git_witness :
  run (sampleEnv [] [] [] gitFirstWrite) world0 =
    (Normal (),
     World [] [SetFailed (js "Either values or values_file must be provided.")]).
Proof.
  apply (C3_neither_input_fails_without_git (sampleEnv [] [] [] gitFirstWrite)
           world0).
  - reflexivity.
  - reflexivity.
Defined.

(** C3, refuted as stated: with no input at all the run does not exit
    successfully; it is reported as failed. *)
Lemma C3_neither_input_is_a_failure :
  provided (getInput (sampleEnv [] [] [] gitFirstWrite) (js "values")) = false
  ∧ provided (getInput (sampleEnv [] [] [] gitFirstWrite) (js "values_file")) = false
  ∧ failed (run (sampleEnv [] [] [] gitFirstWrite) world0).2 = true.
Proof. repeat split; vm_compute; reflexivity. Qed.

(** C10: when the input resolves to a value without keys, the run logs that
    it skips the storage and ends: it is not reported as failed and no git
    command is executed. *)
Theorem C10_empty_map_skips_git E w notes w1 :
  readInput E (getInput E (js "values")) (getInput E (js "values_file")) w
    = (Normal notes, w1) →
  objectKeysLength notes = Normal 0 →
  run E w =
    (Normal (),
     World (git_calls w)
       (log w ++ [Info (js "Notes to store: " ++ JSON_stringify E notes);
                  Info (js "No values provided. Skipping note storage.")])).
Proof.
  intros Hread Hkeys.
  pose proof (readInput_normal _ _ _ _ _ _ Hread) as ->.
  unfold run, try_catch, mbind, action_bind. rewrite Hread.
  unfold info, emit, lift. simpl. rewrite Hkeys. simpl.
  by rewrite <- app_assoc.
Qed.

Lemma C10_empty_map_skips_git_witness :
  run emptyObjectEnv world0 =
    (Normal (),
     World []
       [Info (js "Notes to store: " ++ JSON_stringify emptyObjectEnv (JObject ∅));
        Info (js "No values provided. Skipping note storage.")]).
Proof.
  apply (C10_empty_map_skips_git emptyObjectEnv world0 (JObject ∅) world0).
  - reflexivity.
  - reflexivity.
Defined.

(** ** Writing the note *)

Lemma execGit_exit_zero E args w output :
  exec_git E (git_calls w) args = ExecExits 0 output →
  execGit E args w = (Normal (trim output), World (git_calls w ++ [args]) (log w)).
Proof. intros Hexec. unfold execGit. by rewrite Hexec. Qed.

(** Whatever git answers, the invocation is made and nothing is logged. *)
Lemma execGit_world E args w :
  (execGit E args w).2 = World (git_calls w ++ [args]) (log w).
Proof.
  unfold execGit. destruct (exec_git E (git_calls w) args); [done|].
  by case_bool_decide.
Qed.

(** The note is found: [notes show] exits with 0 and prints [output]. The
    value that is serialized into the note is then [merged]. *)
Lemma addOrUpdateNotes_found E w notes merged commitSha notesRef output :
  exec_git E (git_calls w) (showArgs notesRef) = ExecExits 0 output →
  (if truthy (trim output) then
     match JSON_parse E (trim output) with
     | Normal existingNotes => spread2 existingNotes notes
     | Throw _ => notes
     end
   else notes) = merged →
  git_calls (addOrUpdateNotes E notes commitSha notesRef w).2 =
    git_calls w ++ [showArgs notesRef;
                    addArgs notesRef (JSON_stringify E merged) commitSha].
Proof.
  intros Hshow Hmerged.
  unfold addOrUpdateNotes, try_catch, mbind, action_bind.
  rewrite (execGit_exit_zero _ _ _ _ Hshow). simpl.
  destruct (truthy (trim output)); simpl.
  - unfold lift. destruct (JSON_parse E (trim output)) as [existing|e]; simpl;
      subst merged.
    + match goal with
      | |- context [execGit E ?a ?w'] =>
          pose proof (execGit_world E a w') as Hw;
          destruct (execGit E a w') as [[?|?] ?]
      end; simpl in *; subst; simpl; by rewrite <- app_assoc.
    + match goal with
      | |- context [execGit E ?a ?w'] =>
          pose proof (execGit_world E a w') as Hw;
          destruct (execGit E a w') as [[?|?] ?]
      end; simpl in *; subst; simpl; by rewrite <- app_assoc.
  - subst merged.
    match goal with
    | |- context [execGit E ?a ?w'] =>
        pose proof (execGit_world E a w') as Hw;
        destruct (execGit E a w') as [[?|?] ?]
    end; simpl in *; subst; simpl; by rewrite <- app_assoc.
Qed.

(** The argument vectors of [notes show] and of the write, spelled out. *)
Lemma showArgs_vector notesRef :
  showArgs notesRef = [js "notes"; js "--ref"; notesRef; js "show"].
Proof. reflexivity. Qed.

Lemma addArgs_vector notesRef body commitSha :
  addArgs notesRef body commitSha =
    [js "notes"; js "--ref"; notesRef; js "add"; js "-f"; js "-m"; body;
     commitSha].
Proof. reflexivity. Qed.

(** C1: when the existing note parses as the map [existing] and the new
    input is the map [new], git is run as
    [notes --ref R add -f -m <json> <commit>] where [<json>] serializes a map
    [result] with [result[k] = new[k]] for every key of [new],
    [result[k] = existing[k]] for every key of [existing] that [new] lacks,
    and no other key. The third hypothesis is the fact that [JSON.parse]
    rejects the empty text, so that a note that parses is not empty. *)
Theorem C1_merge_law (E : Env) (w : world) (new existing : gmap str json)
    (commitSha notesRef output syntaxError : str) :
  exec_git E (git_calls w) [js "notes"; js "--ref"; notesRef; js "show"]
    = ExecExits 0 output →
  JSON_parse E (trim output) = Normal (JObject existing) →
  JSON_parse E [] = Throw syntaxError →
  ∃ result : gmap str json,
    git_calls (addOrUpdateNotes E (JObject new) commitSha notesRef w).2 =
      git_calls w
      ++ [[js "notes"; js "--ref"; notesRef; js "show"];
          [js "notes"; js "--ref"; notesRef; js "add"; js "-f"; js "-m";
           JSON_stringify E (JObject result);
           commitSha]]
    ∧ (∀ k v, new !! k = Some v → result !! k = Some v)
    ∧ (∀ k v, new !! k = None → existing !! k = Some v → result !! k = Some v)
    ∧ (∀ k, new !! k = None → existing !! k = None → result !! k = None).
Proof.
  intros Hshow Hparse Hempty.
  destruct (spread2_objects existing new) as (result & Hspread & Hlookup).
  exists result. split.
  - rewrite <- showArgs_vector, <- addArgs_vector.
    apply (addOrUpdateNotes_found E w _ _ _ _ output Hshow).
    destruct (trim output) as [|c s] eqn:Hout; [congruence|].
    simpl. by rewrite Hparse.
  - repeat split.
    + intros k v Hk. by rewrite Hlookup, Hk.
    + intros k v Hk Hex. by rewrite Hlookup, Hk.
    + intros k Hk Hex. by rewrite Hlookup, Hk.
Qed.

Lemma C1_merge_law_witness :
  ∃ result : gmap str json,
    git_calls (addOrUpdateNotes aliceBuildEnv (JObject bobDeploy) (js "c0ffee")
                 (js "notes-kv") world0).2 =
      git_calls world0
      ++ [[js "notes"; js "--ref"; js "notes-kv"; js "show"];
          [js "notes"; js "--ref"; js "notes-kv"; js "add"; js "-f"; js "-m";
           JSON_stringify aliceBuildEnv (JObject result);
           js "c0ffee"]]
    ∧ (∀ k v, bobDeploy !! k = Some v → result !! k = Some v)
    ∧ (∀ k v, bobDeploy !! k = None → aliceBuild !! k = Some v →
         result !! k = Some v)
    ∧ (∀ k, bobDeploy !! k = None → aliceBuild !! k = None →
         result !! k = None).
Proof.
  apply (C1_merge_law aliceBuildEnv world0 bobDeploy aliceBuild
           (js "c0ffee") (js "notes-kv") (aliceBuildText ++ [LF])
           (js "Unexpected end of JSON input")).
  - reflexivity.
  - vm_compute. reflexivity.
  - reflexivity.
Defined.

(** C7, as the code has it: an existing note whose body does not parse as
    JSON does not stop the update. Git is run as
    [notes --ref R add -f -m <json> <commit>] where [<json>] serializes the
    new value alone, and the warning is logged when the body is not empty
    after trimming; an empty body is not parsed at all and nothing is
    warned. *)
Theorem C7_unparsable_note_is_overwritten (E : Env) (w : world) (notes : json)
    (commitSha notesRef output syntaxError output' : str) :
  exec_git E (git_calls w) [js "notes"; js "--ref"; notesRef; js "show"]
    = ExecExits 0 output →
  JSON_parse E (trim output) = Throw syntaxError →
  exec_git E (git_calls w ++ [[js "notes"; js "--ref"; notesRef; js "show"]])
    [js "notes"; js "--ref"; notesRef; js "add"; js "-f"; js "-m";
     JSON_stringify E notes;
     commitSha] = ExecExits 0 output' →
  addOrUpdateNotes E notes commitSha notesRef w =
    (Normal (),
     World
       (git_calls w
        ++ [[js "notes"; js "--ref"; notesRef; js "show"];
            [js "notes"; js "--ref"; notesRef; js "add"; js "-f"; js "-m";
             JSON_stringify E notes;
             commitSha]])
       (log w
        ++ [Info (js "Existing note found. Preparing to update.")]
        ++ (if truthy (trim output)
            then [Warning (js "Failed to parse existing note as JSON. Overwriting with new note.")]
            else [])
        ++ [Info (js "Note added or updated successfully.")])).
Proof.
  intros Hshow Hparse Hadd.
  rewrite <- showArgs_vector, <- addArgs_vector in *.
  unfold addOrUpdateNotes, try_catch, mbind, action_bind.
  rewrite (execGit_exit_zero _ _ _ _ Hshow). simpl.
  destruct (truthy (trim output)); simpl.
  - unfold lift. rewrite Hparse. simpl.
    rewrite (execGit_exit_zero _ _ _ output') by done.
    unfold info, emit. simpl. by rewrite <- !app_assoc.
  - rewrite (execGit_exit_zero _ _ _ output') by done.
    unfold info, emit. simpl. by rewrite <- !app_assoc.
Qed.

Lemma C7_unparsable_note_is_overwritten_witness :
  addOrUpdateNotes garbageNoteEnv (JObject {[ js "a" := JString (js "1") ]})
    (js "c0ffee") (js "notes-kv") world0 =
    (Normal (),
     World
       (git_calls world0
        ++ [[js "notes"; js "--ref"; js "notes-kv"; js "show"];
            [js "notes"; js "--ref"; js "notes-kv"; js "add"; js "-f"; js "-m";
             JSON_stringify garbageNoteEnv (JObject {[ js "a" := JString (js "1") ]});
             js "c0ffee"]])
       (log world0
        ++ [Info (js "Existing note found. Preparing to update.")]
        ++ (if truthy (trim (js "not json" ++ [LF]))
            then [Warning (js "Failed to parse existing note as JSON. Overwriting with new note.")]
            else [])
        ++ [Info (js "Note added or updated successfully.")])).
Proof.
  apply (C7_unparsable_note_is_overwritten garbageNoteEnv world0
           (JObject {[ js "a" := JString (js "1") ]})
           (js "c0ffee") (js "notes-kv") (js "not json" ++ [LF])
           (js "Unexpected token in JSON") []).
  - reflexivity.
  - reflexivity.
  - reflexivity.
Defined.

(** C7, refuted as stated: the note is found and its body, the empty text,
    is not JSON, yet the run logs no warning. *)
Lemma C7_empty_note_no_warning :
  exec_git emptyNoteEnv
    [[js "rev-parse"; js "HEAD"];
     [js "fetch"; js "origin"; js "refs/notes/notes-kv:refs/notes/notes-kv"]]
    (showArgs (js "notes-kv")) = ExecExits 0 []
  ∧ JSON_parse emptyNoteEnv (trim []) = Throw (js "Unexpected end of JSON input")
  ∧ warned (run emptyNoteEnv world0).2 = false
  ∧ failed (run emptyNoteEnv world0).2 = false.
Proof. repeat split; vm_compute; reflexivity. Qed.

(** ** The action on the sample environments *)

Example is_ws_samples :
  is_ws 9 = true ∧ is_ws 13 = true ∧ is_ws 14 = false ∧ is_ws 160 = true
  ∧ is_ws 8202 = true ∧ is_ws 8203 = false ∧ is_ws 65279 = true.
Proof. repeat split. Qed.

Example trim_sample : trim (js "  a b " ++ [LF]) = js "a b".
Proof. reflexivity. Qed.

Example split_trailing_separator : split LF (js "a" ++ [LF]) = [js "a"; []].
Proof. reflexivity. Qed.

Example split_empty : split EQUALS [] = [[]].
Proof. reflexivity. Qed.

Example parsePairs_sample :
  parsePairs (js " a = 1 " ++ LF :: js "b=2" ++ [LF])
  = [[js "a"; js "1"]; [js "b"; js "2"]].
Proof. reflexivity. Qed.

(** An inline input on a commit without a note: the note holds the two
    pairs, and the notes are pushed. *)
Example run_first_write :
  git_calls
    (run (sampleEnv
            [(js "values", js "build_number=42" ++ LF :: js "commit_sha=abc123")]
            [] [] gitFirstWrite) world0).2
  = [[js "rev-parse"; js "HEAD"];
     [js "fetch"; js "origin"; js "refs/notes/notes-kv:refs/notes/notes-kv"];
     showArgs (js "notes-kv");
     addArgs (js "notes-kv")
       (js "{" ++ quoted (js "build_number") ++ js ":" ++ quoted (js "42")
        ++ js "," ++ quoted (js "commit_sha") ++ js ":" ++ quoted (js "abc123")
        ++ js "}")
       (js "c0ffee");
     [js "push"; js "origin"; js "refs/notes/*"; js "-f"]].
Proof. vm_compute. reflexivity. Qed.

(** The note [{"author":"alice"}] and the input [author=bob], [stage=deploy]:
    the note becomes the merge. *)
Example run_merge :
  addArgs (js "notes-kv")
    (js "{" ++ quoted (js "author") ++ js ":" ++ quoted (js "bob")
     ++ js "," ++ quoted (js "stage") ++ js ":" ++ quoted (js "deploy")
     ++ js "}")
    (js "c0ffee")
  ∈ git_calls (run aliceNoteEnv world0).2
  ∧ failed (run aliceNoteEnv world0).2 = false.
Proof. split; [by_decide|by vm_compute]. Qed.

(** A custom reference replaces the default one in every git command. *)
Example run_custom_ref :
  git_calls
    (run (sampleEnv [(js "values", js "a=1"); (js "custom_ref", js "my-notes")]
            [] [] gitFirstWrite) world0).2 !! 2
  = Some (showArgs (js "my-notes")).
Proof. vm_compute. reflexivity. Qed.

(** Both inputs given: the run fails before any git command. *)
Example run_both_inputs :
  run (sampleEnv [(js "values", js "a=1"); (js "values_file", js "values.json")]
         [] [] gitFirstWrite) world0
  = (Normal (),
     World [] [SetFailed (js "Both values and values_file cannot be provided.")]).
Proof. vm_compute. reflexivity. Qed.

(** A push that fails makes the run fail, after the note was written. *)
Example run_push_fails :
  failed
    (run (sampleEnv [(js "values", js "a=1")] [] []
            (λ calls args,
               if bool_decide (head args = Some (js "push"))
               then ExecExits 1 [] else gitFirstWrite calls args))
       world0).2 = true.
Proof. vm_compute. reflexivity. Qed.

(** * Further properties of the code *)

(** ** What [parseInput] returns *)

Lemma parseInput_normal_inv input w notes w' :
  parseInput input w = (Normal notes, w') →
  invalidLines input = []
  ∧ notes = JObject (fromEntries (parsePairs input)) ∧ w' = w.
Proof.
  destruct (invalidLines input) as [|p ps] eqn:Hinv.
  - rewrite parseInput_valid by done. by intros [= <- <-].
  - rewrite parseInput_invalid by (by rewrite Hinv). done.
Qed.

Lemma fromEntries_lookup_Some (pairs : list (list str)) k v :
  fromEntries pairs !! k = Some v → ∃ s, v = JString s ∧ [k; s] ∈ pairs.
Proof.
  induction pairs as [|p pairs IH] using rev_ind; [done|].
  rewrite fromEntries_snoc. intros Hk.
  assert (fromEntries pairs !! k = Some v ∨ ∃ s, v = JString s ∧ p = [k; s])
    as [Hold|(s & -> & ->)].
  { destruct p as [|k' [|v' [|x rest]]]; simpl in Hk; auto.
    destruct (decide (k' = k)) as [->|Hne].
    - rewrite lookup_insert_eq in Hk. right. exists v'. by simplify_eq.
    - rewrite lookup_insert_ne in Hk by done. by left. }
  - destruct (IH Hold) as (s & -> & Hin). exists s. split; [done|].
    apply elem_of_app. by left.
  - exists s. split; [done|]. apply elem_of_app. right. by left.
Qed.

Lemma parsePairs_nonnil input : parsePairs input ≠ [].
Proof.
  unfold parsePairs. pose proof (split_nonnil LF (trim input)).
  by destruct (split LF (trim input)).
Qed.

Lemma parsePairs_valid_elem input p :
  invalidLines input = [] → p ∈ parsePairs input →
  ∃ a b, p = [trim a; trim b] ∧ trim a ≠ [] ∧ trim b ≠ [].
Proof.
  intros Hvalid Hp.
  assert (invalidPair p = false) as Hok.
  { destruct (invalidPair p) eqn:Hinv; [|done]. exfalso.
    by eapply (filter_nil_not_elem_of _ _ p Hvalid). }
  apply invalidPair_false in Hok as (k & v & -> & Hk & Hv).
  unfold parsePairs in Hp. apply list_elem_of_fmap in Hp as (line & Hline & _).
  unfold parseLine in Hline.
  destruct (split EQUALS (trim line)) as [|a [|b [|c rest]]]; simplify_eq/=.
  eauto.
Qed.

(** X1: every entry of the map [parseInput] returns binds a key that is not
    empty and has no whitespace at its ends to a string of the same kind. *)
Theorem parseInput_entries_trimmed (input : str) (w : world)
    (m : gmap str json) (w' : world) (k : str) (v : json) :
  parseInput input w = (Normal (JObject m), w') →
  m !! k = Some v →
  ∃ s, v = JString s ∧ k ≠ [] ∧ s ≠ [] ∧ trim k = k ∧ trim s = s.
Proof.
  intros (Hvalid & [= ->] & _)%parseInput_normal_inv Hk.
  apply fromEntries_lookup_Some in Hk as (s & -> & Hin).
  apply parsePairs_valid_elem in Hin as (a & b & [= -> ->] & Ha & Hb); [|done].
  exists (trim b). by rewrite !trim_idemp.
Qed.

Lemma parseInput_entries_trimmed_witness :
  ∃ s, JString (js "1") = JString s ∧ js "a" ≠ [] ∧ s ≠ []
       ∧ trim (js "a") = js "a" ∧ trim s = s.
Proof.
  apply (parseInput_entries_trimmed (js " a = 1 ") world0
           {[ js "a" := JString (js "1") ]} world0 (js "a") (JString (js "1"))).
  - reflexivity.
  - reflexivity.
Defined.

(** X2: the map [parseInput] returns is never empty: an inline input cannot lead
    to the run that skips the storage. *)
Theorem parseInput_result_has_a_key input w notes w' :
  parseInput input w = (Normal notes, w') →
  ∃ n, objectKeysLength notes = Normal (S n).
Proof.
  intros (Hvalid & -> & _)%parseInput_normal_inv.
  pose proof (parsePairs_nonnil input) as Hne.
  destruct (parsePairs input) as [|p ps] eqn:Hpairs; [done|].
  destruct (parsePairs_valid_elem input p Hvalid) as (a & b & -> & _).
  { rewrite Hpairs. by left. }
  assert (is_Some (fromEntries ([trim a; trim b] :: ps) !! trim a)) as [v Hv].
  { apply fromEntries_is_Some. exists (trim b). by left. }
  simpl. destruct (size (fromEntries ([trim a; trim b] :: ps))) as [|n] eqn:Hsize.
  - apply map_size_empty_iff in Hsize. rewrite Hsize, lookup_empty in Hv. done.
  - eauto.
Qed.

Lemma parseInput_result_has_a_key_witness :
  ∃ n, objectKeysLength (JObject {[ js "a" := JString (js "1") ]}) = Normal (S n).
Proof.
  apply (parseInput_result_has_a_key (js "a=1") world0 _ world0).
  reflexivity.
Defined.

Lemma blank_line_invalid line :
  blank line = true → invalidPair (parseLine line) = true.
Proof. intros Hb. unfold parseLine. by rewrite trim_blank. Qed.

(** X3: a blank line among the lines of the input makes [parseInput] reject the
    whole input. *)
Theorem parseInput_blank_line_rejected input w line :
  line ∈ split LF (trim input) →
  blank line = true →
  parseInput input w =
    (Throw (invalidMessage (invalidLines input)),
     World (git_calls w) (log w ++ [Debug (js "Input: " ++ input)])).
Proof.
  intros Hline Hblank. apply parseInput_invalid. intros Hnil.
  apply invalidLines_nil in Hnil. rewrite Forall_forall in Hnil.
  specialize (Hnil line Hline). by rewrite blank_line_invalid in Hnil.
Qed.

Lemma parseInput_blank_line_rejected_witness :
  parseInput (js "a=1" ++ LF :: LF :: js "b=2") world0 =
    (Throw (invalidMessage (invalidLines (js "a=1" ++ LF :: LF :: js "b=2"))),
     World (git_calls world0)
       (log world0 ++ [Debug (js "Input: " ++ js "a=1" ++ LF :: LF :: js "b=2")])).
Proof.
  apply (parseInput_blank_line_rejected (js "a=1" ++ LF :: LF :: js "b=2")
           world0 []).
  - by_decide.
  - reflexivity.
Defined.

(** ** Errors of the input *)

Lemma mbind_normal {A B} (m : action A) (f : A → action B) w a w' :
  m w = (Normal a, w') → (m ≫= f) w = f a w'.
Proof. intros Hm. unfold mbind, action_bind. by rewrite Hm. Qed.

Lemma mbind_throw {A B} (m : action A) (f : A → action B) w e w' :
  m w = (Throw e, w') → (m ≫= f) w = (Throw e, w').
Proof. intros Hm. unfold mbind, action_bind. by rewrite Hm. Qed.

(** An error of [readInput] ends the run: it is reported with its message
    and nothing else happens. *)
Lemma run_input_error E w message w1 :
  readInput E (getInput E (js "values")) (getInput E (js "values_file")) w
    = (Throw message, w1) →
  run E w = (Normal (), World (git_calls w1) (log w1 ++ [SetFailed message])).
Proof.
  intros Hread. unfold run, try_catch.
  by rewrite (mbind_throw _ _ _ _ _ Hread).
Qed.

Lemma readInput_git_calls E valuesInput valuesFile w :
  git_calls (readInput E valuesInput valuesFile w).2 = git_calls w.
Proof.
  unfold readInput.
  destruct (provided valuesInput), (provided valuesFile); simpl; try done.
  - destruct (invalidLines valuesInput) as [|p ps] eqn:Hinv.
    + by rewrite parseInput_valid.
    + by rewrite parseInput_invalid by (by rewrite Hinv).
  - unfold mbind, action_bind, lift, throw.
    destruct (readFile E valuesFile); [|done].
    destruct (JSON_parse E a); [|done]. by case_bool_decide.
Qed.

(** X4: [readInput] runs no git command, whatever it returns, and when it
    returns a value it has logged nothing. *)
Theorem readInput_runs_no_git E valuesInput valuesFile w :
  git_calls (readInput E valuesInput valuesFile w).2 = git_calls w
  ∧ ∀ notes, (readInput E valuesInput valuesFile w).1 = Normal notes →
             (readInput E valuesInput valuesFile w).2 = w.
Proof.
  split; [apply readInput_git_calls|].
  destruct (readInput E valuesInput valuesFile w) as [result w1] eqn:Hread.
  simpl. intros notes ->. by apply (readInput_normal _ _ _ _ _ _ Hread).
Qed.

(** X5: both inputs given: the run is reported as failed with the message of
    [readInput]; the file is not read and no git command is executed. *)
Theorem run_both_inputs_rejected E w :
  provided (getInput E (js "values")) = true →
  provided (getInput E (js "values_file")) = true →
  run E w =
    (Normal (),
     World (git_calls w)
       (log w ++ [SetFailed (js "Both values and values_file cannot be provided.")])).
Proof.
  intros Hv Hf. apply (run_input_error E w _ w).
  unfold readInput. by rewrite Hv, Hf.
Qed.

Lemma run_both_inputs_rejected_witness :
  run (sampleEnv [(js "values", js "a=1"); (js "values_file", js "values.json")]
         [(js "values.json", js "{}")] [(js "{}", JObject ∅)] gitFirstWrite)
    world0 =
    (Normal (),
     World (git_calls world0)
       (log world0
        ++ [SetFailed (js "Both values and values_file cannot be provided.")])).
Proof.
  apply (run_both_inputs_rejected
           (sampleEnv [(js "values", js "a=1"); (js "values_file", js "values.json")]
              [(js "values.json", js "{}")] [(js "{}", JObject ∅)] gitFirstWrite)
           world0).
  - reflexivity.
  - reflexivity.
Defined.

(** X6: a values file that cannot be read: the run is reported as failed with
    the message of [readFile], and no git command is executed. *)
Theorem run_unreadable_file_fails E w message :
  provided (getInput E (js "values")) = false →
  provided (getInput E (js "values_file")) = true →
  readFile E (getInput E (js "values_file")) = Throw message →
  run E w =
    (Normal (), World (git_calls w) (log w ++ [SetFailed message])).
Proof.
  intros Hv Hf Hread. apply (run_input_error E w _ w).
  unfold readInput, mbind, action_bind, lift. by rewrite Hv, Hf, Hread.
Qed.

Lemma run_unreadable_file_fails_witness :
  run (sampleEnv [(js "values_file", js "missing.json")] [] [] gitFirstWrite)
    world0 =
    (Normal (),
     World (git_calls world0)
       (log world0
        ++ [SetFailed (js "ENOENT: no such file or directory, open 'missing.json'")])).
Proof.
  apply (run_unreadable_file_fails
           (sampleEnv [(js "values_file", js "missing.json")] [] [] gitFirstWrite)
           world0).
  - reflexivity.
  - reflexivity.
  - reflexivity.
Defined.

(** X7: a values file whose content is not JSON: the run is reported as failed
    with the message of [JSON.parse], and no git command is executed. *)
Theorem run_invalid_json_file_fails E w content message :
  provided (getInput E (js "values")) = false →
  provided (getInput E (js "values_file")) = true →
  readFile E (getInput E (js "values_file")) = Normal content →
  JSON_parse E content = Throw message →
  run E w =
    (Normal (), World (git_calls w) (log w ++ [SetFailed message])).
Proof.
  intros Hv Hf Hread Hparse. apply (run_input_error E w _ w).
  unfold readInput, mbind, action_bind, lift.
  by rewrite Hv, Hf, Hread, Hparse.
Qed.

Lemma run_invalid_json_file_fails_witness :
  run (sampleEnv [(js "values_file", js "values.json")]
         [(js "values.json", js "{oops")] [] gitFirstWrite) world0 =
    (Normal (),
     World (git_calls world0)
       (log world0 ++ [SetFailed (js "Unexpected token in JSON")])).
Proof.
  apply (run_invalid_json_file_fails
           (sampleEnv [(js "values_file", js "values.json")]
              [(js "values.json", js "{oops")] [] gitFirstWrite)
           world0 (js "{oops")).
  - reflexivity.
  - reflexivity.
  - reflexivity.
  - reflexivity.
Defined.

(** X8: a values file whose JSON is a string, a number or a boolean: the run is
    reported as failed with [Input must be a JSON object.], and no git
    command is executed. *)
Theorem run_primitive_file_fails E w content v :
  provided (getInput E (js "values")) = false →
  provided (getInput E (js "values_file")) = true →
  readFile E (getInput E (js "values_file")) = Normal content →
  JSON_parse E content = Normal v →
  (∃ s, v = JString s) ∨ (∃ x, v = JNumber x) ∨ (∃ b, v = JBool b) →
  run E w =
    (Normal (),
     World (git_calls w)
       (log w ++ [SetFailed (js "Input must be a JSON object.")])).
Proof.
  intros Hv Hf Hread Hparse Hprim. apply (run_input_error E w _ w).
  by apply (readInput_file_primitive E _ _ content v).
Qed.

Lemma run_primitive_file_fails_witness :
  run (sampleEnv [(js "values_file", js "values.json")]
         [(js "values.json", js "true")] [(js "true", JBool true)] gitFirstWrite)
    world0 =
    (Normal (),
     World (git_calls world0)
       (log world0 ++ [SetFailed (js "Input must be a JSON object.")])).
Proof.
  apply (run_primitive_file_fails
           (sampleEnv [(js "values_file", js "values.json")]
              [(js "values.json", js "true")] [(js "true", JBool true)]
              gitFirstWrite)
           world0 (js "true") (JBool true)).
  - reflexivity.
  - reflexivity.
  - reflexivity.
  - reflexivity.
  - right. right. by exists true.
Defined.

(** X9: a values file whose JSON is an object: [readInput] returns the object as
    [JSON.parse] gave it, whatever its values are, and logs nothing. *)
Theorem readInput_object_file_as_is (E : Env) (valuesInput valuesFile : str)
    (content : str) (m : gmap str json) (w : world) :
  provided valuesInput = false →
  provided valuesFile = true →
  readFile E valuesFile = Normal content →
  JSON_parse E content = Normal (JObject m) →
  readInput E valuesInput valuesFile w = (Normal (JObject m), w).
Proof.
  intros Hv Hf Hread Hparse.
  by rewrite (readInput_file E _ _ content (JObject m)).
Qed.

Lemma readInput_object_file_as_is_witness :
  readInput emptyObjectEnv [] (js "values.json") world0
  = (Normal (JObject ∅), world0).
Proof.
  apply (readInput_object_file_as_is emptyObjectEnv [] (js "values.json")
           (js "{}") ∅ world0).
  - reflexivity.
  - reflexivity.
  - reflexivity.
  - reflexivity.
Defined.

(** ** The git commands, one by one *)

Lemma execGit_fails E args w message :
  failureMessage args (exec_git E (git_calls w) args) = Some message →
  execGit E args w = (Throw message, World (git_calls w ++ [args]) (log w)).
Proof.
  unfold failureMessage, execGit.
  destruct (exec_git E (git_calls w) args) as [m|code out].
  - by intros [= <-].
  - case_bool_decide; [|done]. by intros [= <-].
Qed.

Lemma execGit_cases E args w :
  (∃ out, exec_git E (git_calls w) args = ExecExits 0 out)
  ∨ (∃ message, failureMessage args (exec_git E (git_calls w) args) = Some message).
Proof.
  unfold failureMessage.
  destruct (exec_git E (git_calls w) args) as [m|code out]; [eauto|].
  case_bool_decide as Hcode; [eauto|].
  left. exists out. f_equal. by destruct (decide (code = 0%Z)).
Qed.

Lemma fetchNotesRef_result E notesRef w :
  fetchNotesRef E notesRef w =
    (Normal (),
     World (git_calls w ++ [fetchArgs notesRef])
       (log w ++ fetchLog notesRef (exec_git E (git_calls w) (fetchArgs notesRef)))).
Proof.
  unfold fetchNotesRef, try_catch, fetchLog. fold (fetchArgs notesRef).
  destruct (execGit_cases E (fetchArgs notesRef) w) as [[out Hok]|[message Hko]].
  - rewrite (mbind_normal _ _ _ _ _ (execGit_exit_zero _ _ _ _ Hok)).
    rewrite Hok. simpl. by rewrite app_nil_r.
  - rewrite (mbind_throw _ _ _ _ _ (execGit_fails _ _ _ _ Hko)).
    by rewrite Hko.
Qed.

(** X11: [fetchNotesRef] never throws: it runs the fetch once; it logs nothing
    when git succeeds and one informational line when git fails. *)
Theorem fetchNotesRef_never_throws E notesRef w :
  ∃ events,
    fetchNotesRef E notesRef w =
      (Normal (),
       World (git_calls w ++ [fetchArgs notesRef]) (log w ++ events))
    ∧ (events = [] ↔
       ∃ out, exec_git E (git_calls w) (fetchArgs notesRef) = ExecExits 0 out)
    ∧ (events = [] ∨ ∃ message, events = [Info message]).
Proof.
  exists (fetchLog notesRef (exec_git E (git_calls w) (fetchArgs notesRef))).
  split; [apply fetchNotesRef_result|]. unfold fetchLog, failureMessage.
  destruct (exec_git E (git_calls w) (fetchArgs notesRef)) as [m|code out].
  - split; [|eauto]. split; [done|]. by intros [out [=]].
  - case_bool_decide as Hcode.
    + split; [|eauto]. split; [done|]. intros [out' [= -> _]]. done.
    + split; [|by left]. split; [|done]. intros _. exists out.
      f_equal. by destruct (decide (code = 0%Z)).
Qed.

(** Up to the write, [addOrUpdateNotes] cannot fail: it runs [notes show]
    once, settles on a value [merged] and goes on to write it. *)
Lemma addOrUpdateNotes_prepare E notes commitSha notesRef w :
  ∃ merged events,
    (∀ message, SetFailed message ∉ events)
    ∧ addOrUpdateNotes E notes commitSha notesRef w =
      (execGit E (addArgs notesRef (JSON_stringify E merged) commitSha);;
       info (js "Note added or updated successfully."))
        (World (git_calls w ++ [showArgs notesRef]) (log w ++ events)).
Proof.
  unfold addOrUpdateNotes.
  destruct (execGit_cases E (showArgs notesRef) w) as [[out Hok]|[message Hko]].
  - pose proof (execGit_exit_zero _ _ _ _ Hok) as Hshow.
    destruct (truthy (trim out)) eqn:Hout;
      [destruct (JSON_parse E (trim out)) as [existing|e] eqn:Hparse|].
    + exists (spread2 existing notes),
        [Info (js "Existing note found. Preparing to update.");
         Info (js "Merged notes: " ++ JSON_stringify E (spread2 existing notes))].
      split.
      { intros m Hm. repeat (apply elem_of_cons in Hm as [?|Hm]; [done|]).
        by apply elem_of_nil in Hm. }
      unfold try_catch, mbind, action_bind, lift. rewrite Hshow. simpl.
      rewrite Hout, Hparse. simpl. by rewrite <- app_assoc.
    + exists notes,
        [Info (js "Existing note found. Preparing to update.");
         Warning (js "Failed to parse existing note as JSON. Overwriting with new note.")].
      split.
      { intros m Hm. repeat (apply elem_of_cons in Hm as [?|Hm]; [done|]).
        by apply elem_of_nil in Hm. }
      unfold try_catch, mbind, action_bind, lift. rewrite Hshow. simpl.
      rewrite Hout, Hparse. simpl. by rewrite <- app_assoc.
    + exists notes, [Info (js "Existing note found. Preparing to update.")].
      split.
      { intros m Hm. repeat (apply elem_of_cons in Hm as [?|Hm]; [done|]).
        by apply elem_of_nil in Hm. }
      unfold try_catch, mbind, action_bind, lift. rewrite Hshow. simpl.
      by rewrite Hout.
  - pose proof (execGit_fails _ _ _ _ Hko) as Hshow.
    exists notes, [Info (js "No existing note found. A new note will be created.")].
    split.
    { intros m Hm. repeat (apply elem_of_cons in Hm as [?|Hm]; [done|]).
      by apply elem_of_nil in Hm. }
    unfold try_catch, mbind, action_bind, lift. by rewrite Hshow.
Qed.

(** X12: no note on the commit ([notes show] fails): git is run as
    [notes --ref R add -f -m <json> <commit>] where [<json>] serializes the
    new value alone; nothing is parsed, merged or warned. *)
Theorem addOrUpdateNotes_first_write (E : Env) (w : world) (notes : json)
    (commitSha notesRef message output : str) :
  failureMessage [js "notes"; js "--ref"; notesRef; js "show"]
    (exec_git E (git_calls w) [js "notes"; js "--ref"; notesRef; js "show"])
    = Some message →
  exec_git E (git_calls w ++ [[js "notes"; js "--ref"; notesRef; js "show"]])
    [js "notes"; js "--ref"; notesRef; js "add"; js "-f"; js "-m";
     JSON_stringify E notes;
     commitSha] = ExecExits 0 output →
  addOrUpdateNotes E notes commitSha notesRef w =
    (Normal (),
     World
       (git_calls w
        ++ [[js "notes"; js "--ref"; notesRef; js "show"];
            [js "notes"; js "--ref"; notesRef; js "add"; js "-f"; js "-m";
             JSON_stringify E notes;
             commitSha]])
       (log w ++ [Info (js "No existing note found. A new note will be created.");
                  Info (js "Note added or updated successfully.")])).
Proof.
  intros Hshow Hadd. rewrite <- showArgs_vector, <- addArgs_vector in *.
  unfold addOrUpdateNotes, try_catch, mbind, action_bind.
  rewrite (execGit_fails _ _ _ _ Hshow). simpl.
  rewrite (execGit_exit_zero _ _ _ output) by done.
  unfold info, emit. simpl. by rewrite <- !app_assoc.
Qed.

Lemma addOrUpdateNotes_first_write_witness :
  addOrUpdateNotes (inlineEnv gitFirstWrite) a1 (js "c0ffee") (js "notes-kv")
    world0 =
    (Normal (),
     World
       (git_calls world0
        ++ [[js "notes"; js "--ref"; js "notes-kv"; js "show"];
            [js "notes"; js "--ref"; js "notes-kv"; js "add"; js "-f"; js "-m";
             JSON_stringify (inlineEnv gitFirstWrite) a1;
             js "c0ffee"]])
       (log world0
        ++ [Info (js "No existing note found. A new note will be created.");
            Info (js "Note added or updated successfully.")])).
Proof.
  apply (addOrUpdateNotes_first_write (inlineEnv gitFirstWrite) world0 a1
           (js "c0ffee") (js "notes-kv")
           (js "The process '/usr/bin/git' failed with exit code 1") []).
  - reflexivity.
  - reflexivity.
Defined.

(** ** The run, command by command *)

(** With notes to store, the run goes on to git. *)
Lemma run_store E w notes w1 n :
  readInput E (getInput E (js "values")) (getInput E (js "values_file")) w
    = (Normal notes, w1) →
  objectKeysLength notes = Normal (S n) →
  run E w =
    try_catch
      (commitSha ← getCurrentCommit E;
       fetchNotesRef E (notesRefOf E);;
       addOrUpdateNotes E notes commitSha (notesRefOf E);;
       pushNotes E;;
       info (js "Notes stored successfully."))
      setFailed
      (World (git_calls w)
         (log w ++ [Info (js "Notes to store: " ++ JSON_stringify E notes)])).
Proof.
  intros Hread Hkeys. pose proof (readInput_normal _ _ _ _ _ _ Hread) as ->.
  unfold run, try_catch. cbv zeta.
  rewrite (mbind_normal _ _ _ _ _ Hread).
  rewrite (mbind_normal _ _ w ()
             (World (git_calls w)
                (log w ++ [Info (js "Notes to store: " ++ JSON_stringify E notes)])))
    by done.
  rewrite (mbind_normal (lift (objectKeysLength notes)) _ _ (S n)
             (World (git_calls w)
                (log w ++ [Info (js "Notes to store: " ++ JSON_stringify E notes)])))
    by (unfold lift; by rewrite Hkeys).
  reflexivity.
Qed.

(** X15: [rev-parse] fails: the run is reported as failed with the message of the
    failure, and no other git command is executed. *)
Theorem run_rev_parse_fails E w notes w1 n message :
  readInput E (getInput E (js "values")) (getInput E (js "values_file")) w
    = (Normal notes, w1) →
  objectKeysLength notes = Normal (S n) →
  failureMessage revParseArgs (exec_git E (git_calls w) revParseArgs)
    = Some message →
  run E w =
    (Normal (),
     World (git_calls w ++ [revParseArgs])
       (log w ++ [Info (js "Notes to store: " ++ JSON_stringify E notes);
                  SetFailed message])).
Proof.
  intros Hread Hkeys Hrev. rewrite (run_store E w notes w1 n) by done.
  unfold try_catch, getCurrentCommit. fold revParseArgs.
  rewrite (mbind_throw _ _ _ message
             (World (git_calls w ++ [revParseArgs])
                (log w ++ [Info (js "Notes to store: " ++ JSON_stringify E notes)]))).
  - unfold setFailed, emit. cbn [git_calls log]. by rewrite <- app_assoc.
  - by apply execGit_fails.
Qed.

Lemma run_rev_parse_fails_witness :
  run (inlineEnv gitDown) world0 =
    (Normal (),
     World (git_calls world0 ++ [revParseArgs])
       (log world0
        ++ [Info (js "Notes to store: " ++ JSON_stringify (inlineEnv gitDown) a1);
            SetFailed (js "The process '/usr/bin/git' failed with exit code 128")])).
Proof.
  apply (run_rev_parse_fails (inlineEnv gitDown) world0 a1 world0 0
           (js "The process '/usr/bin/git' failed with exit code 128")).
  - reflexivity.
  - reflexivity.
  - reflexivity.
Defined.

(** After a [rev-parse] that succeeds, the run reaches the write of the note
    without a failure: fetch and [notes show] are run once each. *)
Lemma run_until_write E w notes w1 n shaOut :
  readInput E (getInput E (js "values")) (getInput E (js "values_file")) w
    = (Normal notes, w1) →
  objectKeysLength notes = Normal (S n) →
  exec_git E (git_calls w) revParseArgs = ExecExits 0 shaOut →
  ∃ merged events,
    (∀ message, SetFailed message ∉ events)
    ∧ run E w =
      try_catch
        ((execGit E (addArgs (notesRefOf E) (JSON_stringify E merged) (trim shaOut));;
          info (js "Note added or updated successfully."));;
         pushNotes E;;
         info (js "Notes stored successfully."))
        setFailed
        (World
           (git_calls w ++ [revParseArgs; fetchArgs (notesRefOf E);
                            showArgs (notesRefOf E)])
           (log w ++ events)).
Proof.
  intros Hread Hkeys Hrev. rewrite (run_store E w notes w1 n) by done.
  set (w2 := World (git_calls w)
               (log w ++ [Info (js "Notes to store: " ++ JSON_stringify E notes)])).
  set (w3 := World (git_calls w ++ [revParseArgs]) (log w2)).
  set (w4 := World (git_calls w3 ++ [fetchArgs (notesRefOf E)])
               (log w3 ++ fetchLog (notesRefOf E)
                            (exec_git E (git_calls w3) (fetchArgs (notesRefOf E))))).
  destruct (addOrUpdateNotes_prepare E notes (trim shaOut) (notesRefOf E) w4)
    as (merged & events & Hquiet & Hprepare).
  exists merged,
    ([Info (js "Notes to store: " ++ JSON_stringify E notes)]
     ++ fetchLog (notesRefOf E) (exec_git E (git_calls w3) (fetchArgs (notesRefOf E)))
     ++ events).
  split.
  - intros message [Hm|[Hm|Hm]%elem_of_app]%elem_of_app.
    + apply list_elem_of_singleton in Hm. done.
    + unfold fetchLog in Hm. case_match; [|by apply elem_of_nil in Hm].
      apply list_elem_of_singleton in Hm. done.
    + by apply (Hquiet message).
  - unfold try_catch.
    assert (getCurrentCommit E w2 = (Normal (trim shaOut), w3)) as Hcommit
      by (by apply execGit_exit_zero).
    rewrite (mbind_normal _ _ _ _ _ Hcommit).
    rewrite (mbind_normal _ _ _ _ _ (fetchNotesRef_result E _ w3)).
    fold w4. unfold mbind at 1, action_bind at 1. rewrite Hprepare.
    unfold mbind at 4, action_bind at 4.
    subst w4 w3 w2. cbn [git_calls log]. by rewrite <- !app_assoc.
Qed.

(** The write and the push, from the world [w] in which the note is about
    to be written. *)
Lemma store_tail_add_fails E body commitSha notesRef w message :
  failureMessage (addArgs notesRef body commitSha)
    (exec_git E (git_calls w) (addArgs notesRef body commitSha)) = Some message →
  try_catch
    ((execGit E (addArgs notesRef body commitSha);;
      info (js "Note added or updated successfully."));;
     pushNotes E;;
     info (js "Notes stored successfully."))
    setFailed w =
  (Normal (),
   World (git_calls w ++ [addArgs notesRef body commitSha])
     (log w ++ [SetFailed message])).
Proof.
  intros Hadd. unfold try_catch.
  by rewrite (mbind_throw _ _ _ _ _
                (mbind_throw _ _ _ _ _ (execGit_fails _ _ _ _ Hadd))).
Qed.

Lemma store_tail_added E body commitSha notesRef w out :
  exec_git E (git_calls w) (addArgs notesRef body commitSha) = ExecExits 0 out →
  (execGit E (addArgs notesRef body commitSha);;
   info (js "Note added or updated successfully.")) w =
  (Normal (),
   World (git_calls w ++ [addArgs notesRef body commitSha])
     (log w ++ [Info (js "Note added or updated successfully.")])).
Proof.
  intros Hadd. by rewrite (mbind_normal _ _ _ _ _ (execGit_exit_zero _ _ _ _ Hadd)).
Qed.

Lemma store_tail_push_fails E body commitSha notesRef w out message :
  exec_git E (git_calls w) (addArgs notesRef body commitSha) = ExecExits 0 out →
  failureMessage pushArgs
    (exec_git E (git_calls w ++ [addArgs notesRef body commitSha]) pushArgs)
    = Some message →
  try_catch
    ((execGit E (addArgs notesRef body commitSha);;
      info (js "Note added or updated successfully."));;
     pushNotes E;;
     info (js "Notes stored successfully."))
    setFailed w =
  (Normal (),
   World (git_calls w ++ [addArgs notesRef body commitSha; pushArgs])
     (log w ++ [Info (js "Note added or updated successfully.");
                SetFailed message])).
Proof.
  intros Hadd Hpush. unfold try_catch.
  rewrite (mbind_normal _ _ _ _ _ (store_tail_added _ _ _ _ _ _ Hadd)).
  unfold pushNotes. fold pushArgs.
  rewrite (mbind_throw _ _ _ message
             (World (git_calls w ++ [addArgs notesRef body commitSha; pushArgs])
                (log w ++ [Info (js "Note added or updated successfully.")]))).
  - unfold setFailed, emit. cbn [git_calls log]. by rewrite <- app_assoc.
  - rewrite (mbind_throw _ _ _ message
               (World (git_calls w ++ [addArgs notesRef body commitSha; pushArgs])
                  (log w ++ [Info (js "Note added or updated successfully.")])));
      [done|].
    rewrite (execGit_fails _ _ _ message) by done.
    cbn [git_calls log]. by rewrite <- app_assoc.
Qed.

Lemma store_tail_pushed E body commitSha notesRef w out out' :
  exec_git E (git_calls w) (addArgs notesRef body commitSha) = ExecExits 0 out →
  exec_git E (git_calls w ++ [addArgs notesRef body commitSha]) pushArgs
    = ExecExits 0 out' →
  try_catch
    ((execGit E (addArgs notesRef body commitSha);;
      info (js "Note added or updated successfully."));;
     pushNotes E;;
     info (js "Notes stored successfully."))
    setFailed w =
  (Normal (),
   World (git_calls w ++ [addArgs notesRef body commitSha; pushArgs])
     (log w ++ [Info (js "Note added or updated successfully.");
                Info (js "Notes stored successfully.")])).
Proof.
  intros Hadd Hpush. unfold try_catch.
  rewrite (mbind_normal _ _ _ _ _ (store_tail_added _ _ _ _ _ _ Hadd)).
  unfold pushNotes. fold pushArgs.
  rewrite (mbind_normal _ _ _ ()
             (World (git_calls w ++ [addArgs notesRef body commitSha; pushArgs])
                (log w ++ [Info (js "Note added or updated successfully.")]))).
  - unfold info, emit. cbn [git_calls log]. by rewrite <- app_assoc.
  - rewrite (mbind_normal _ _ _ (trim out')
               (World (git_calls w ++ [addArgs notesRef body commitSha; pushArgs])
                  (log w ++ [Info (js "Note added or updated successfully.")])));
      [done|].
    rewrite (execGit_exit_zero _ _ _ out') by done.
    cbn [git_calls log]. by rewrite <- app_assoc.
Qed.

(** X16: the write fails: the run is reported as failed and the push is never
    run; the commands were [rev-parse], the fetch, [notes show] and the
    write, once each. *)
Theorem run_write_fails E w notes w1 n shaOut :
  readInput E (getInput E (js "values")) (getInput E (js "values_file")) w
    = (Normal notes, w1) →
  objectKeysLength notes = Normal (S n) →
  exec_git E (git_calls w) revParseArgs = ExecExits 0 shaOut →
  (∀ body, ∃ message,
     failureMessage (addArgs (notesRefOf E) body (trim shaOut))
       (exec_git E
          (git_calls w ++ [revParseArgs; fetchArgs (notesRefOf E);
                           showArgs (notesRefOf E)])
          (addArgs (notesRefOf E) body (trim shaOut))) = Some message) →
  ∃ merged events message,
    (∀ m, SetFailed m ∉ events)
    ∧ run E w =
      (Normal (),
       World
         (git_calls w
          ++ [revParseArgs; fetchArgs (notesRefOf E); showArgs (notesRefOf E);
              addArgs (notesRefOf E) (JSON_stringify E merged) (trim shaOut)])
         (log w ++ events ++ [SetFailed message])).
Proof.
  intros Hread Hkeys Hrev Hadd.
  destruct (run_until_write E w notes w1 n shaOut Hread Hkeys Hrev)
    as (merged & events & Hquiet & ->).
  destruct (Hadd (JSON_stringify E merged)) as [message Hfail].
  exists merged, events, message. split; [done|].
  rewrite (store_tail_add_fails _ _ _ _ _ message) by done.
  cbn [git_calls log]. by rewrite <- !app_assoc.
Qed.

Lemma run_write_fails_witness :
  ∃ merged events message,
    (∀ m, SetFailed m ∉ events)
    ∧ run (inlineEnv gitAddFails) world0 =
      (Normal (),
       World
         (git_calls world0
          ++ [revParseArgs; fetchArgs (notesRefOf (inlineEnv gitAddFails));
              showArgs (notesRefOf (inlineEnv gitAddFails));
              addArgs (notesRefOf (inlineEnv gitAddFails))
                (JSON_stringify (inlineEnv gitAddFails) merged)
                (trim (js "c0ffee" ++ [LF]))])
         (log world0 ++ events ++ [SetFailed message])).
Proof.
  apply (run_write_fails (inlineEnv gitAddFails) world0 a1 world0 0
           (js "c0ffee" ++ [LF])).
  - reflexivity.
  - reflexivity.
  - reflexivity.
  - intros body. eexists. reflexivity.
Defined.

(** X17: the push fails: the run is reported as failed although the note was
    written. *)
Theorem run_push_fails_after_write E w notes w1 n shaOut :
  readInput E (getInput E (js "values")) (getInput E (js "values_file")) w
    = (Normal notes, w1) →
  objectKeysLength notes = Normal (S n) →
  exec_git E (git_calls w) revParseArgs = ExecExits 0 shaOut →
  (∀ body, ∃ out,
     exec_git E
       (git_calls w ++ [revParseArgs; fetchArgs (notesRefOf E);
                        showArgs (notesRefOf E)])
       (addArgs (notesRefOf E) body (trim shaOut)) = ExecExits 0 out) →
  (∀ body, ∃ message,
     failureMessage pushArgs
       (exec_git E
          (git_calls w ++ [revParseArgs; fetchArgs (notesRefOf E);
                           showArgs (notesRefOf E);
                           addArgs (notesRefOf E) body (trim shaOut)])
          pushArgs) = Some message) →
  ∃ merged events message,
    (∀ m, SetFailed m ∉ events)
    ∧ run E w =
      (Normal (),
       World
         (git_calls w
          ++ [revParseArgs; fetchArgs (notesRefOf E); showArgs (notesRefOf E);
              addArgs (notesRefOf E) (JSON_stringify E merged) (trim shaOut);
              pushArgs])
         (log w ++ events
          ++ [Info (js "Note added or updated successfully.");
              SetFailed message])).
Proof.
  intros Hread Hkeys Hrev Hadd Hpush.
  destruct (run_until_write E w notes w1 n shaOut Hread Hkeys Hrev)
    as (merged & events & Hquiet & ->).
  destruct (Hadd (JSON_stringify E merged)) as [out Hok].
  destruct (Hpush (JSON_stringify E merged)) as [message Hfail].
  exists merged, events, message. split; [done|].
  rewrite (store_tail_push_fails _ _ _ _ _ out message).
  - cbn [git_calls log]. by rewrite <- !app_assoc.
  - done.
  - cbn [git_calls]. by rewrite <- app_assoc.
Qed.

Lemma run_push_fails_after_write_witness :
  ∃ merged events message,
    (∀ m, SetFailed m ∉ events)
    ∧ run (inlineEnv gitPushFails) world0 =
      (Normal (),
       World
         (git_calls world0
          ++ [revParseArgs; fetchArgs (notesRefOf (inlineEnv gitPushFails));
              showArgs (notesRefOf (inlineEnv gitPushFails));
              addArgs (notesRefOf (inlineEnv gitPushFails))
                (JSON_stringify (inlineEnv gitPushFails) merged)
                (trim (js "c0ffee" ++ [LF]));
              pushArgs])
         (log world0 ++ events
          ++ [Info (js "Note added or updated successfully.");
              SetFailed message])).
Proof.
  apply (run_push_fails_after_write (inlineEnv gitPushFails) world0 a1 world0 0
           (js "c0ffee" ++ [LF])).
  - reflexivity.
  - reflexivity.
  - reflexivity.
  - intros body. eexists. reflexivity.
  - intros body. eexists. reflexivity.
Defined.

(** X18: [rev-parse], the write and the push succeed: the run is not reported as
    failed, whatever the fetch and [notes show] do and whatever the existing
    note holds. The five commands are run once each, in this order, the
    write with the trimmed output of [rev-parse] as the commit. *)
Theorem run_succeeds E w notes w1 n shaOut :
  readInput E (getInput E (js "values")) (getInput E (js "values_file")) w
    = (Normal notes, w1) →
  objectKeysLength notes = Normal (S n) →
  exec_git E (git_calls w) revParseArgs = ExecExits 0 shaOut →
  (∀ body, ∃ out,
     exec_git E
       (git_calls w ++ [revParseArgs; fetchArgs (notesRefOf E);
                        showArgs (notesRefOf E)])
       (addArgs (notesRefOf E) body (trim shaOut)) = ExecExits 0 out) →
  (∀ body, ∃ out,
     exec_git E
       (git_calls w ++ [revParseArgs; fetchArgs (notesRefOf E);
                        showArgs (notesRefOf E);
                        addArgs (notesRefOf E) body (trim shaOut)])
       pushArgs = ExecExits 0 out) →
  ∃ merged events,
    (∀ m, SetFailed m ∉ events)
    ∧ run E w =
      (Normal (),
       World
         (git_calls w
          ++ [revParseArgs; fetchArgs (notesRefOf E); showArgs (notesRefOf E);
              addArgs (notesRefOf E) (JSON_stringify E merged) (trim shaOut);
              pushArgs])
         (log w ++ events
          ++ [Info (js "Note added or updated successfully.");
              Info (js "Notes stored successfully.")])).
Proof.
  intros Hread Hkeys Hrev Hadd Hpush.
  destruct (run_until_write E w notes w1 n shaOut Hread Hkeys Hrev)
    as (merged & events & Hquiet & ->).
  destruct (Hadd (JSON_stringify E merged)) as [out Hok].
  destruct (Hpush (JSON_stringify E merged)) as [out' Hok'].
  exists merged, events. split; [done|].
  rewrite (store_tail_pushed _ _ _ _ _ out out').
  - cbn [git_calls log]. by rewrite <- !app_assoc.
  - done.
  - cbn [git_calls]. by rewrite <- app_assoc.
Qed.

Lemma run_succeeds_witness :
  ∃ merged events,
    (∀ m, SetFailed m ∉ events)
    ∧ run garbageNoteEnv world0 =
      (Normal (),
       World
         (git_calls world0
          ++ [revParseArgs; fetchArgs (notesRefOf garbageNoteEnv);
              showArgs (notesRefOf garbageNoteEnv);
              addArgs (notesRefOf garbageNoteEnv)
                (JSON_stringify garbageNoteEnv merged)
                (trim (js "c0ffee" ++ [LF]));
              pushArgs])
         (log world0 ++ events
          ++ [Info (js "Note added or updated successfully.");
              Info (js "Notes stored successfully.")])).
Proof.
  apply (run_succeeds garbageNoteEnv world0 a1 world0 0 (js "c0ffee" ++ [LF])).
  - reflexivity.
  - reflexivity.
  - reflexivity.
  - intros body. eexists. reflexivity.
  - intros body. eexists. reflexivity.
Defined.

(** A run that stores nothing: the input has no key, or its keys cannot be
    listed. *)
Lemma run_without_store E w notes w1 (keys : completion nat) :
  readInput E (getInput E (js "values")) (getInput E (js "values_file")) w
    = (Normal notes, w1) →
  objectKeysLength notes = keys →
  (keys = Normal 0 ∨ ∃ message, keys = Throw message) →
  git_calls (run E w).2 = git_calls w.
Proof.
  intros Hread Hkeys Hcase.
  pose proof (readInput_normal _ _ _ _ _ _ Hread) as ->.
  unfold run, try_catch. cbv zeta.
  rewrite (mbind_normal _ _ _ _ _ Hread).
  rewrite (mbind_normal _ _ w ()
             (World (git_calls w)
                (log w ++ [Info (js "Notes to store: " ++ JSON_stringify E notes)])))
    by done.
  destruct Hcase as [->|[message ->]].
  - by rewrite (mbind_normal (lift (objectKeysLength notes)) _ _ 0
                  (World (git_calls w)
                     (log w ++ [Info (js "Notes to store: " ++ JSON_stringify E notes)])))
      by (unfold lift; by rewrite Hkeys).
  - by rewrite (mbind_throw (lift (objectKeysLength notes)) _ _ message
                  (World (git_calls w)
                     (log w ++ [Info (js "Notes to store: " ++ JSON_stringify E notes)])))
      by (unfold lift; by rewrite Hkeys).
Qed.

(** X19: whatever the inputs and whatever git answers, a run executes nothing but
    [rev-parse], the fetch, [notes show], the write and the push, in this
    order, each at most once, and stops at the first of them it does not
    reach. *)
Theorem run_git_commands_bounded E w :
  ∃ commitSha body k,
    k `prefix_of`
      [revParseArgs; fetchArgs (notesRefOf E); showArgs (notesRefOf E);
       addArgs (notesRefOf E) body commitSha; pushArgs]
    ∧ git_calls (run E w).2 = git_calls w ++ k.
Proof.
  destruct (readInput E (getInput E (js "values")) (getInput E (js "values_file")) w)
    as [[notes|message] w1] eqn:Hread.
  - destruct (objectKeysLength notes) as [[|n]|message] eqn:Hkeys.
    + exists [], [], []. split; [by eexists|]. rewrite app_nil_r.
      apply (run_without_store E w notes w1 (Normal 0)); auto.
    + destruct (execGit_cases E revParseArgs w) as [[shaOut Hrev]|[message Hrev]].
      * destruct (run_until_write E w notes w1 n shaOut Hread Hkeys Hrev)
          as (merged & events & _ & ->).
        set (w5 := World _ (log w ++ events)).
        set (body := JSON_stringify E merged).
        exists (trim shaOut), body.
        destruct (execGit_cases E (addArgs (notesRefOf E) body (trim shaOut)) w5)
          as [[out Hadd]|[message Hadd]].
        -- set (w6 := World (git_calls w5 ++ [addArgs (notesRefOf E) body (trim shaOut)])
                        (log w5)).
           destruct (execGit_cases E pushArgs w6) as [[out' Hpush]|[message Hpush]].
           ++ exists [revParseArgs; fetchArgs (notesRefOf E); showArgs (notesRefOf E);
                      addArgs (notesRefOf E) body (trim shaOut); pushArgs].
              split; [by exists []|].
              rewrite (store_tail_pushed _ _ _ _ _ out out') by done.
              subst w5. cbn [git_calls snd]. by rewrite <- app_assoc.
           ++ exists [revParseArgs; fetchArgs (notesRefOf E); showArgs (notesRefOf E);
                      addArgs (notesRefOf E) body (trim shaOut); pushArgs].
              split; [by exists []|].
              rewrite (store_tail_push_fails _ _ _ _ _ out message) by done.
              subst w5. cbn [git_calls snd]. by rewrite <- app_assoc.
        -- exists [revParseArgs; fetchArgs (notesRefOf E); showArgs (notesRefOf E);
                   addArgs (notesRefOf E) body (trim shaOut)].
           split; [by exists [pushArgs]|].
           rewrite (store_tail_add_fails _ _ _ _ _ message) by done.
           subst w5. cbn [git_calls snd]. by rewrite <- app_assoc.
      * exists [], [], [revParseArgs]. split; [by eexists|].
        rewrite (run_store E w notes w1 n) by done.
        unfold try_catch, getCurrentCommit. fold revParseArgs.
        by rewrite (mbind_throw _ _ _ message
                      (World (git_calls w ++ [revParseArgs])
                         (log w ++ [Info (js "Notes to store: " ++ JSON_stringify E notes)])))
          by (by apply execGit_fails).
    + exists [], [], []. split; [by eexists|]. rewrite app_nil_r.
      apply (run_without_store E w notes w1 (Throw message)); eauto.
  - exists [], [], []. split; [by eexists|]. rewrite app_nil_r.
    rewrite (run_input_error E w message w1 Hread). cbn [snd git_calls].
    pose proof (readInput_git_calls E (getInput E (js "values"))
                  (getInput E (js "values_file")) w) as Hcalls.
    by rewrite Hread in Hcalls.
Qed.

(** ** The merge *)

Lemma copyDataProperties_empty (m : gmap str json) :
  copyDataProperties ∅ (JObject m) = m.
Proof.
  apply map_eq. intros k. rewrite lookup_copyDataProperties. simpl.
  destruct (m !! k); [done|]. apply lookup_empty.
Qed.

(** X14: the merge is idempotent: merging [notes] once more into the merge
    of [existing] and [notes] changes nothing, so storing the same value on
    top of its own result leaves the map as it is. *)
Theorem spread2_idempotent existing notes :
  spread2 (spread2 existing notes) notes = spread2 existing notes.
Proof.
  unfold spread2. f_equal. apply map_eq. intros k.
  rewrite !lookup_copyDataProperties. simpl.
  rewrite !lookup_copyDataProperties. simpl.
  destruct (ownProps notes !! k); [done|].
  destruct (ownProps existing !! k); [done|]. by rewrite !lookup_empty.
Qed.

(** X13: an existing note that is JSON without properties ([null], a number,
    a boolean, the empty object, array or string) adds nothing: git is run
    as [notes --ref R add -f -m <json> <commit>] where [<json>] serializes
    the new map alone. *)
Theorem addOrUpdateNotes_existing_without_properties (E : Env) (w : world)
    (new : gmap str json) (existing : json)
    (commitSha notesRef output syntaxError : str) :
  exec_git E (git_calls w) [js "notes"; js "--ref"; notesRef; js "show"]
    = ExecExits 0 output →
  JSON_parse E (trim output) = Normal existing →
  JSON_parse E [] = Throw syntaxError →
  ownProps existing = ∅ →
  git_calls (addOrUpdateNotes E (JObject new) commitSha notesRef w).2 =
    git_calls w
    ++ [[js "notes"; js "--ref"; notesRef; js "show"];
        [js "notes"; js "--ref"; notesRef; js "add"; js "-f"; js "-m";
         JSON_stringify E (JObject new);
         commitSha]].
Proof.
  intros Hshow Hparse Hempty Hprops.
  rewrite <- showArgs_vector, <- addArgs_vector.
  apply (addOrUpdateNotes_found E w _ _ _ _ output Hshow).
  destruct (trim output) as [|c s] eqn:Hout; [congruence|].
  simpl. rewrite Hparse. unfold spread2. f_equal. apply map_eq. intros k.
  rewrite !lookup_copyDataProperties, Hprops. simpl.
  destruct (new !! k); [done|]. by rewrite !lookup_empty.
Qed.

(** The commit has the note [null]. *)
Lemma addOrUpdateNotes_existing_without_properties_witness :
  git_calls
    (addOrUpdateNotes
       (sampleEnv [] [] [(js "null", JNull)] (gitWithNote (js "null" ++ [LF])))
       (JObject {[ js "a" := JString (js "1") ]}) (js "c0ffee") (js "notes-kv")
       world0).2 =
    git_calls world0
    ++ [[js "notes"; js "--ref"; js "notes-kv"; js "show"];
        [js "notes"; js "--ref"; js "notes-kv"; js "add"; js "-f"; js "-m";
         JSON_stringify
           (sampleEnv [] [] [(js "null", JNull)] (gitWithNote (js "null" ++ [LF])))
           (JObject {[ js "a" := JString (js "1") ]});
         js "c0ffee"]].
Proof.
  apply (addOrUpdateNotes_existing_without_properties
           (sampleEnv [] [] [(js "null", JNull)] (gitWithNote (js "null" ++ [LF])))
           world0 {[ js "a" := JString (js "1") ]} JNull
           (js "c0ffee") (js "notes-kv") (js "null" ++ [LF])
           (js "Unexpected end of JSON input")).
  - reflexivity.
  - reflexivity.
  - reflexivity.
  - reflexivity.
Defined.

(** ** [execGit] *)

(** X10: when [execGit] returns, git exited with 0 and the value is its standard
    output without the whitespace at its ends (a commit id comes without its
    line feed); the command was run once and nothing was logged. *)
Theorem execGit_returns_trimmed_output E args w value w' :
  execGit E args w = (Normal value, w') →
  (∃ output, exec_git E (git_calls w) args = ExecExits 0 output
             ∧ value = trim output)
  ∧ trim value = value
  ∧ w' = World (git_calls w ++ [args]) (log w).
Proof.
  intros Hexec.
  destruct (execGit_cases E args w) as [[out Hok]|[message Hko]].
  - rewrite (execGit_exit_zero _ _ _ _ Hok) in Hexec.
    injection Hexec as <- <-. split; [eauto|]. by rewrite trim_idemp.
  - by rewrite (execGit_fails _ _ _ _ Hko) in Hexec.
Qed.

Lemma execGit_returns_trimmed_output_witness :
  (∃ output,
     exec_git (inlineEnv gitFirstWrite) (git_calls world0) revParseArgs
       = ExecExits 0 output
     ∧ js "c0ffee" = trim output)
  ∧ trim (js "c0ffee") = js "c0ffee"
  ∧ World [revParseArgs] [] = World (git_calls world0 ++ [revParseArgs]) (log world0).
Proof.
  apply (execGit_returns_trimmed_output (inlineEnv gitFirstWrite) revParseArgs
           world0 (js "c0ffee") (World [revParseArgs] [])).
  reflexivity.
Defined.

(** ** The merge, within a run *)

(** The note is found and parses: [addOrUpdateNotes] goes on to write the
    merge. *)
Lemma addOrUpdateNotes_merge_step E notes existing commitSha notesRef w output :
  exec_git E (git_calls w) (showArgs notesRef) = ExecExits 0 output →
  truthy (trim output) = true →
  JSON_parse E (trim output) = Normal existing →
  addOrUpdateNotes E notes commitSha notesRef w =
    (execGit E
       (addArgs notesRef (JSON_stringify E (spread2 existing notes)) commitSha);;
     info (js "Note added or updated successfully."))
      (World (git_calls w ++ [showArgs notesRef])
         (log w
          ++ [Info (js "Existing note found. Preparing to update.");
              Info (js "Merged notes: "
                    ++ JSON_stringify E (spread2 existing notes))])).
Proof.
  intros Hshow Hout Hparse.
  unfold addOrUpdateNotes, try_catch, mbind, action_bind, lift.
  rewrite (execGit_exit_zero _ _ _ _ Hshow). simpl.
  rewrite Hout, Hparse. simpl. by rewrite <- app_assoc.
Qed.

(** X20: the merge law of a whole run. With the map [new] to store, a
    [rev-parse] that succeeds and a note on the commit that parses as the map
    [existing], the run executes [rev-parse HEAD], the fetch, [notes show]
    and then [notes --ref R add -f -m <json> <commit>], where [<commit>] is
    the trimmed output of [rev-parse] and [<json>] serializes a map with the
    values of [new], the values of [existing] under the keys [new] lacks, and
    no other key; after it comes the push, unless the write failed. *)
Theorem run_writes_merged_map (E : Env) (w w1 : world)
    (new existing : gmap str json) (n : nat)
    (shaOut output syntaxError : str) :
  readInput E (getInput E (js "values")) (getInput E (js "values_file")) w
    = (Normal (JObject new), w1) →
  objectKeysLength (JObject new) = Normal (S n) →
  exec_git E (git_calls w) [js "rev-parse"; js "HEAD"] = ExecExits 0 shaOut →
  exec_git E
    (git_calls w
     ++ [[js "rev-parse"; js "HEAD"];
         [js "fetch"; js "origin";
          js "refs/notes/" ++ notesRefOf E ++ js ":refs/notes/" ++ notesRefOf E]])
    [js "notes"; js "--ref"; notesRefOf E; js "show"] = ExecExits 0 output →
  JSON_parse E (trim output) = Normal (JObject existing) →
  JSON_parse E [] = Throw syntaxError →
  ∃ (result : gmap str json) (rest : list (list str)),
    git_calls (run E w).2 =
      git_calls w
      ++ [[js "rev-parse"; js "HEAD"];
          [js "fetch"; js "origin";
           js "refs/notes/" ++ notesRefOf E ++ js ":refs/notes/" ++ notesRefOf E];
          [js "notes"; js "--ref"; notesRefOf E; js "show"];
          [js "notes"; js "--ref"; notesRefOf E; js "add"; js "-f"; js "-m";
           JSON_stringify E (JObject result);
           trim shaOut]]
      ++ rest
    ∧ (rest = [] ∨ rest = [[js "push"; js "origin"; js "refs/notes/*"; js "-f"]])
    ∧ (∀ k v, new !! k = Some v → result !! k = Some v)
    ∧ (∀ k v, new !! k = None → existing !! k = Some v → result !! k = Some v)
    ∧ (∀ k, new !! k = None → existing !! k = None → result !! k = None).
Proof.
  intros Hread Hkeys Hrev Hshow Hparse Hempty.
  destruct (spread2_objects existing new) as (result & Hspread & Hlookup).
  assert (truthy (trim output) = true) as Hout.
  { destruct (trim output); [congruence|done]. }
  set (ref := notesRefOf E) in *.
  set (body := JSON_stringify E (JObject result)).
  set (w2 := World (git_calls w)
               (log w ++ [Info (js "Notes to store: " ++ JSON_stringify E (JObject new))])).
  set (w3 := World (git_calls w ++ [revParseArgs]) (log w2)).
  set (w4 := World (git_calls w3 ++ [fetchArgs ref])
               (log w3 ++ fetchLog ref (exec_git E (git_calls w3) (fetchArgs ref)))).
  set (w5 := World (git_calls w4 ++ [showArgs ref])
               (log w4
                ++ [Info (js "Existing note found. Preparing to update.");
                    Info (js "Merged notes: " ++ body)])).
  assert (run E w =
          try_catch
            ((execGit E (addArgs ref body (trim shaOut));;
              info (js "Note added or updated successfully."));;
             pushNotes E;;
             info (js "Notes stored successfully."))
            setFailed w5) as ->.
  { rewrite (run_store E w (JObject new) w1 n) by done. fold ref w2.
    unfold try_catch.
    assert (getCurrentCommit E w2 = (Normal (trim shaOut), w3)) as Hcommit
      by (by apply execGit_exit_zero).
    rewrite (mbind_normal _ _ _ _ _ Hcommit).
    rewrite (mbind_normal _ _ _ _ _ (fetchNotesRef_result E ref w3)).
    fold w4. unfold mbind at 1, action_bind at 1.
    rewrite (addOrUpdateNotes_merge_step E (JObject new) (JObject existing)
               (trim shaOut) ref w4 output)
      by (try done; subst w4 w3; cbn [git_calls]; by rewrite <- app_assoc).
    rewrite Hspread. fold body w5. by unfold mbind at 4, action_bind at 4. }
  exists result.
  assert (git_calls w5 =
          git_calls w ++ [revParseArgs; fetchArgs ref; showArgs ref]) as Hcalls.
  { subst w5 w4 w3. cbn [git_calls]. by rewrite <- !app_assoc. }
  assert (∃ rest,
            git_calls (try_catch
                         ((execGit E (addArgs ref body (trim shaOut));;
                           info (js "Note added or updated successfully."));;
                          pushNotes E;;
                          info (js "Notes stored successfully."))
                         setFailed w5).2
            = git_calls w5 ++ addArgs ref body (trim shaOut) :: rest
            ∧ (rest = [] ∨ rest = [pushArgs])) as (rest & Htail & Hrest).
  { destruct (execGit_cases E (addArgs ref body (trim shaOut)) w5)
      as [[out Hadd]|[message Hadd]].
    - set (w6 := World (git_calls w5 ++ [addArgs ref body (trim shaOut)]) (log w5)).
      destruct (execGit_cases E pushArgs w6) as [[out' Hpush]|[message Hpush]].
      + exists [pushArgs]. split; [|by right].
        by rewrite (store_tail_pushed _ _ _ _ _ out out').
      + exists [pushArgs]. split; [|by right].
        by rewrite (store_tail_push_fails _ _ _ _ _ out message).
    - exists []. split; [|by left].
      by rewrite (store_tail_add_fails _ _ _ _ _ message). }
  exists rest. split; [|split; [exact Hrest|]].
  - rewrite Htail, Hcalls. rewrite <- app_assoc. reflexivity.
  - repeat split.
    + intros k v Hk. by rewrite Hlookup, Hk.
    + intros k v Hk Hex. by rewrite Hlookup, Hk.
    + intros k Hk Hex. by rewrite Hlookup, Hk.
Qed.

Lemma run_writes_merged_map_witness :
  ∃ (result : gmap str json) (rest : list (list str)),
    git_calls (run aliceBuildEnv world0).2 =
      git_calls world0
      ++ [[js "rev-parse"; js "HEAD"];
          [js "fetch"; js "origin";
           js "refs/notes/" ++ notesRefOf aliceBuildEnv
           ++ js ":refs/notes/" ++ notesRefOf aliceBuildEnv];
          [js "notes"; js "--ref"; notesRefOf aliceBuildEnv; js "show"];
          [js "notes"; js "--ref"; notesRefOf aliceBuildEnv; js "add"; js "-f";
           js "-m";
           JSON_stringify aliceBuildEnv (JObject result);
           trim (js "c0ffee" ++ [LF])]]
      ++ rest
    ∧ (rest = [] ∨ rest = [[js "push"; js "origin"; js "refs/notes/*"; js "-f"]])
    ∧ (∀ k v, fromEntries [[js "author"; js "bob"]; [js "stage"; js "deploy"]] !! k
              = Some v → result !! k = Some v)
    ∧ (∀ k v, fromEntries [[js "author"; js "bob"]; [js "stage"; js "deploy"]] !! k
              = None → aliceBuild !! k = Some v → result !! k = Some v)
    ∧ (∀ k, fromEntries [[js "author"; js "bob"]; [js "stage"; js "deploy"]] !! k
            = None → aliceBuild !! k = None → result !! k = None).
Proof.
  apply (run_writes_merged_map aliceBuildEnv world0 world0
           (fromEntries [[js "author"; js "bob"]; [js "stage"; js "deploy"]])
           aliceBuild 1 (js "c0ffee" ++ [LF]) (aliceBuildText ++ [LF])
           (js "Unexpected end of JSON input")).
  - reflexivity.
  - vm_compute. reflexivity.
  - reflexivity.
  - reflexivity.
  - vm_compute. reflexivity.
  - reflexivity.
Defined.
